(** * pyMOR glue code: the demo launcher, the wheel-building CI script and
      the heat-equation notebook

    The repository's visible code is glue: a launcher that dispatches to a
    demo module by name, a bash script that drives the containerised wheel
    build, and a notebook that sequences calls into the model-reduction
    library.  Each is embedded below as a Rocq function over an explicit
    state; calls that leave the file (runpy, docker, the pyMOR library) are
    recorded in a log, and their results are inputs of the model. *)

From Stdlib Require Import List String Ascii Bool Arith ZArith Lia.
From Stdlib Require QArith Qround.
Import ListNotations.

Open Scope string_scope.

(** ** Strings as Python and bash use them *)

Module Str.

Definition nl : string := String "010" EmptyString.

(** Python's [s[n:]]. *)
Fixpoint slice_from (n : nat) (s : string) : string :=
  match n, s with
  | 0, _ => s
  | S _, EmptyString => EmptyString
  | S k, String _ s' => slice_from k s'
  end.

(** [occurs s t]: [s] is a contiguous part of [t]. *)
Definition occurs (s t : string) : Prop :=
  exists a b, t = a ++ s ++ b.

End Str.

(** ** The demo launcher *)

Module Launcher.

Import Str.

(** How the process, or a demo run inside it, comes to an end:
    [Exited status] is SystemExit with an integer code ([sys.exit()] and
    [sys.exit(None)] count as code 0); [Raised exc] is every other end, an
    uncaught exception or SystemExit with a code that is no integer. *)
Inductive termination :=
| Exited (status : Z)      (* SystemExit(status) *)
| Raised (exc : string).   (* any other uncaught exception *)

(** One call of [runpy.run_module], with [sys.argv] as it stands when the
    call is made.  With [alter_sys] set, runpy itself puts the file of the
    module in [sys.argv[0]] for the time of the run ("rest is automatic");
    the record holds what the launcher hands over. *)
Record run_call := {
  mod_name : string;
  run_name : string;
  alter_sys : bool;
  argv_at_call : list string
}.

(** What the module finds in [sys.argv] while it runs: with [alter_sys]
    set, runpy has put the file of the module, [file_of m], in the place of
    [sys.argv[0]], and puts the old entry back when the run returns. *)
Definition argv_in_module (file_of : string -> string) (c : run_call)
  : list string :=
  if alter_sys c then file_of (mod_name c) :: tl (argv_at_call c)
  else argv_at_call c.

Record process := {
  argv : list string;        (* sys.argv *)
  stdout : list string;      (* what print wrote, one entry per call *)
  runs : list run_call
}.

(** Python code over the process state; [inr] is an exception on its way
    up, [sys.exit] included. *)
Definition py (A : Type) : Type := process -> (A + termination) * process.

Definition ret {A} (a : A) : py A := fun w => (inl a, w).

Definition bind {A B} (m : py A) (k : A -> py B) : py B :=
  fun w => match m w with
           | (inl a, w') => k a w'
           | (inr t, w') => (inr t, w')
           end.

#[local] Notation "x <- m ;; k" := (bind m (fun x => k))
  (at level 61, m at next level, right associativity).
#[local] Notation "m ;;; k" := (bind m (fun _ => k))
  (at level 61, right associativity).

Definition raise {A} (t : termination) : py A := fun w => (inr t, w).

Definition sys_exit {A} (status : Z) : py A := raise (Exited status).

Definition of_option {A} (exc : string) (o : option A) : py A :=
  match o with
  | Some a => ret a
  | None => raise (Raised exc)
  end.

(** [print(s)] writes [s] and a newline. *)
Definition print (s : string) : py unit :=
  fun w => (inl tt, {| argv := argv w; stdout := stdout w ++ [s ++ nl];
                       runs := runs w |}).

(** [sys.argv[i]] *)
Definition argv_get (i : nat) : py string :=
  fun w => of_option "IndexError" (nth_error (argv w) i) w.

(** [len(sys.argv)] *)
Definition argv_len : py nat := fun w => (inl (List.length (argv w)), w).

(** [del sys.argv[i]] *)
Definition argv_del (i : nat) : py unit :=
  fun w => if (i <? List.length (argv w))%nat
           then (inl tt, {| argv := firstn i (argv w) ++ skipn (S i) (argv w);
                            stdout := stdout w; runs := runs w |})
           else (inr (Raised "IndexError"), w).

(** [x in l] and [l.index(x)] on lists of strings. *)
Definition contains (x : string) (l : list string) : bool :=
  existsb (String.eqb x) l.

Fixpoint index (x : string) (l : list string) : option nat :=
  match l with
  | [] => None
  | y :: l' => if String.eqb y x then Some 0 else option_map S (index x l')
  end.

Section WithEnvironment.

(** The names [pkgutil] finds under [pymordemos.__path__], relative to the
    package, in the order it yields them. *)
Variable found : list string.

(** What running a module does as seen from the caller, given the module
    and [sys.argv] as the launcher leaves it: [None] when [run_module]
    returns, [Some t] when the demo ends the process itself.  What the
    module reads in [sys.argv] during the run is [argv_in_module]. *)
Variable demo : string -> list string -> option termination.

(** [pkgutil.walk_packages(path, prefix)] puts [prefix] in front of every
    name it yields. *)
Definition walk_packages (prefix : string) : list string :=
  map (String.append prefix) found.

Definition pymordemos_name : string := "pymordemos".

Definition run_module (m : string) (name : string) (alter : bool) : py unit :=
  fun w =>
    let w' := {| argv := argv w; stdout := stdout w;
                 runs := runs w ++ [{| mod_name := m; run_name := name;
                                       alter_sys := alter;
                                       argv_at_call := argv w |}] |} in
    match demo m (argv w) with
    | None => (inl tt, w')
    | Some t => (inr t, w')
    end.

Definition _run {A} (m : string) : py A :=
  argv_del 1 ;;;
  run_module m "__main__" true ;;;
  sys_exit 0.

(** The discovery loop: both lists grow by one entry per module found. *)
Definition discover (names : list string) : list string * list string :=
  fold_left
    (fun (acc : list string * list string) module_name =>
       let '(modules, shorts) := acc in
       let short := slice_from (String.length "pymordemos.") module_name in
       ((modules ++ [module_name])%list, (shorts ++ [short])%list))
    names ([], []).

Definition modules : list string :=
  fst (discover (walk_packages (pymordemos_name ++ "."))).

Definition shorts : list string :=
  snd (discover (walk_packages (pymordemos_name ++ "."))).

Definition usage_msg (argv0 : string) : string :=
  "Usage:" ++ nl ++
  "    " ++ argv0 ++ " DEMO_NAME | -h [DEMO_OPTIONS]" ++ nl ++
  nl ++
  "Arguments:" ++ nl ++
  "    -h           this message" ++ nl ++
  "    DEMO_NAME    select one from these: " ++ String.concat "," shorts ++ nl ++
  "    DEMO_OPTIONS any arguments for the demo, including -h for detailed help" ++ nl.

Definition usage {A} : py A :=
  argv0 <- argv_get 0 ;;
  print (usage_msg argv0) ;;;
  sys_exit 0.

Definition main : py unit :=
  (* the parser's epilog reads sys.argv[0]; the parser is not used again *)
  _ <- argv_get 0 ;;
  n <- argv_len ;;
  (if (n <? 2)%nat then usage else ret tt) ;;;
  a1 <- argv_get 1 ;;
  (if contains a1 shorts
   then i <- of_option "ValueError" (index a1 shorts) ;;
        m <- of_option "IndexError" (nth_error modules i) ;;
        _run m
   else ret tt) ;;;
  usage.

Definition launcher (args : list string) : (unit + termination) * process :=
  main {| argv := args; stdout := []; runs := [] |}.

(** The call of [run_module] that [_run] makes. *)
Definition the_call (m : string) (seen : list string) : run_call :=
  {| mod_name := m; run_name := "__main__"; alter_sys := true;
     argv_at_call := seen |}.

(** How the launcher ends after the demo: with status 0 when the run
    returns. *)
Definition after_demo (r : option termination) : termination :=
  match r with
  | None => Exited 0
  | Some t => t
  end.

(** The status the operating system sees: the interpreter takes the code
    of SystemExit as a C long, -1 when it does not fit, and the system keeps
    the low eight bits. *)
Definition exit_status (r : unit + termination) : Z :=
  match r with
  | inl _ => 0
  | inr (Exited status) =>
      if (- 2 ^ 63 <=? status)%Z && (status <? 2 ^ 63)%Z
      then (status mod 256)%Z
      else 255
  | inr (Raised _) => 1
  end.

End WithEnvironment.

(** A package with the demos burgers and thermalblock, whose runs return. *)
Definition two_demos : list string := ["burgers"; "thermalblock"].

Definition returning : string -> list string -> option termination :=
  fun _ _ => None.

(** A demo that ends with [sys.exit(status)]. *)
Definition exiting (status : Z)
  : string -> list string -> option termination :=
  fun _ _ => Some (Exited status).

(** An installation in which every module lies in one directory. *)
Fixpoint path_of (m : string) : string :=
  match m with
  | EmptyString => EmptyString
  | String c m' => String (if Ascii.eqb c "." then "/"%char else c) (path_of m')
  end.

Definition installed (m : string) : string :=
  "/usr/lib/python3/site-packages/" ++ path_of m ++ ".py".

End Launcher.

(** ** The wheel-building CI script *)

Module CI.

Local Open Scope list_scope.

(** File contents are sequences of characters. *)
Definition text : Type := list ascii.

Definition newline : ascii := "010"%char.

(** *** sed *)

(** [strip_prefix p s] is what follows [p] in [s] when [s] starts with [p]. *)
Fixpoint strip_prefix (p s : text) : option text :=
  match p, s with
  | [], _ => Some s
  | _ :: _, [] => None
  | a :: p', b :: s' => if Ascii.eqb a b then strip_prefix p' s' else None
  end.

(** [s;pat;rep;g] on one line, for a pattern without special characters:
    from left to right, every match is replaced and the scan goes on
    behind it.  [fuel] bounds the number of steps; one step consumes at
    least one character. *)
Fixpoint substitute (fuel : nat) (pat rep line : text) : text :=
  match fuel with
  | 0 => line
  | S fuel' =>
      match line with
      | [] => []
      | c :: line' =>
          match strip_prefix pat line with
          | Some rest => rep ++ substitute fuel' pat rep rest
          | None => c :: substitute fuel' pat rep line'
          end
      end
  end.

Definition s_g (pat rep line : text) : text :=
  substitute (List.length line) pat rep line.

(** Splitting at newlines, and joining again. *)
Fixpoint lines (s : text) : list text :=
  match s with
  | [] => [[]]
  | c :: s' =>
      if Ascii.eqb c newline then [] :: lines s'
      else match lines s' with
           | l :: ls => (c :: l) :: ls
           | [] => [[c]]
           end
  end.

Fixpoint join (sep : text) (parts : list text) : text :=
  match parts with
  | [] => []
  | [p] => p
  | p :: ps => p ++ sep ++ join sep ps
  end.

(** [sed -e 's;pat;rep;g'] works line by line; a last line without a
    newline stays without one. *)
Definition sed_s_g (pat rep file : text) : text :=
  join [newline] (map (s_g pat rep) (lines file)).

(** [occurs p s]: [p] is a contiguous part of [s]. *)
Definition occurs (p s : text) : Prop :=
  exists a b, s = a ++ p ++ b.

(** [after] is [before] with every occurrence of [pat] replaced by [rep]
    and nothing else changed: [before] is cut at occurrences of [pat] into
    parts that hold no further occurrence, and [after] has the same parts
    with [rep] between them. *)
Definition replaced_everywhere (pat rep before after : text) : Prop :=
  exists parts,
    parts <> []
    /\ before = join pat parts
    /\ after = join rep parts
    /\ Forall (fun part => ~ occurs pat part) parts.

(** The expression in the script is
    [s;style\ \=\ pep440;style\ \=\ ci_wheel_builder;g]: a backslash before
    a blank or [=] stands for that character, on both sides. *)
Definition pattern : text := list_ascii_of_string "style = pep440".
Definition replacement : text := list_ascii_of_string "style = ci_wheel_builder".

(** *** The script *)

(** What the script reads from outside: four environment variables, the
    output of [id -u], the directory two levels above the script's own,
    which the script computes with [pwd -P], and the files of that
    directory: [matching e w] are the names that match the pattern [w], in
    the order in which the shell lists them. *)
Record env := {
  CI_COMMIT_TAG : option string;
  SHARED_PATH : option string;
  PYVER : option string;
  TEST_OS : option string;
  id_u : string;
  pymor_root : string;
  matching : string -> list string
}.

(** The commands that the script runs, each with the values that the
    script puts into its words: [assign_pymor_root] is the assignment of
    the command substitution [$(cd ...; cd ../../; pwd -P)] to PYMOR_ROOT,
    whose status is that of [pwd -P], the last command in it; [docker_run]
    holds LOCAL_USER_ID, the directories mounted at /io/wheelhouse and
    /io/pymor, the image and the command; [docker_build] the value of [os]
    in [tag=${os}] and the context directory. Where the script leaves such
    a value unquoted the shell still splits the word and matches it against
    file names before the command gets it; an action holds the value, not
    the words made of it. *)
Inductive action :=
| sed_setup_cfg
| assign_pymor_root
| cd (dir : string)
| mkdir_p (dir : string)
| docker_pull (image : string)
| docker_run (local_user_id wheelhouse root image command : string)
| cp (src dst : string)
| docker_build (tag context : string).

Record state := {
  setup_cfg : option text;   (* setup.cfg, when it exists *)
  trace : list action        (* the commands run so far, oldest first *)
}.

Inductive stop :=
| failed (a : action)              (* set -e: a command returned non-zero *)
| unbound_variable (name : string).  (* set -u *)

Definition sh (A : Type) : Type := state -> (A + stop) * state.

Definition ret {A} (a : A) : sh A := fun st => (inl a, st).

Definition bind {A B} (m : sh A) (k : A -> sh B) : sh B :=
  fun st => match m st with
            | (inl a, st') => k a st'
            | (inr e, st') => (inr e, st')
            end.

#[local] Notation "x <- m ;; k" := (bind m (fun x => k))
  (at level 61, m at next level, right associativity).
#[local] Notation "m ;;; k" := (bind m (fun _ => k))
  (at level 61, right associativity).

(** [${name}]: empty for an unset variable, an error under [set -u]. *)
Definition expand (set_u : bool) (name : string) (value : option string)
  : sh string :=
  fun st => match value with
            | Some v => (inl v, st)
            | None => if set_u then (inr (unbound_variable name), st)
                      else (inl "", st)
            end.

(** Word splitting of an unquoted expansion at blanks, tabs and newlines. *)
Definition is_ifs (c : ascii) : bool :=
  Ascii.eqb c " "%char || Ascii.eqb c "009"%char || Ascii.eqb c "010"%char.

Fixpoint split_words (word : string) (s : string) : list string :=
  match s with
  | EmptyString => if String.eqb word "" then [] else [word]
  | String c s' =>
      if is_ifs c
      then if String.eqb word "" then split_words "" s'
           else word :: split_words "" s'
      else split_words (word ++ String c "")%string s'
  end.

Definition fields (s : string) : list string := split_words "" s.

(** Pathname expansion of a word of an unquoted expansion: a word with
    [*], [?] or [[] is a pattern and gives way to the names that match it;
    when none matches, and for every other word, the word stays. *)
Definition is_pattern_char (c : ascii) : bool :=
  Ascii.eqb c "*"%char || Ascii.eqb c "?"%char || Ascii.eqb c "["%char.

Fixpoint has_pattern_char (s : string) : bool :=
  match s with
  | EmptyString => false
  | String c s' => is_pattern_char c || has_pattern_char s'
  end.

Definition pathname_expansion (e : env) (word : string) : list string :=
  if has_pattern_char word
  then match matching e word with
       | [] => [word]
       | names => names
       end
  else [word].

(** The words that [for os in ${TEST_OS}] goes through. *)
Definition loop_words (e : env) (test_os : string) : list string :=
  flat_map (pathname_expansion e) (fields test_os).

Section WithCommands.

(** Whether the [n]-th command run (counting from 0) returns status 0. *)
Variable succeeds : nat -> action -> bool.

(** [sed -i] fails when setup.cfg cannot be read, and rewrites it
    otherwise; the other commands leave setup.cfg alone. *)
Definition status_ok (st : state) (a : action) : bool :=
  match a with
  | sed_setup_cfg => match setup_cfg st with Some _ => true | None => false end
  | _ => succeeds (List.length (trace st)) a
  end.

Definition effect (st : state) (a : action) : option text :=
  match a with
  | sed_setup_cfg => option_map (sed_s_g pattern replacement) (setup_cfg st)
  | _ => setup_cfg st
  end.

(** A simple command under [set -e]. *)
Definition run (a : action) : sh unit :=
  fun st =>
    let st' := {| setup_cfg := effect st a; trace := trace st ++ [a] |} in
    if status_ok st a then (inl tt, st') else (inr (failed a), st').

Fixpoint for_each {A} (l : list A) (body : A -> sh unit) : sh unit :=
  match l with
  | [] => ret tt
  | x :: l' => body x ;;; for_each l' body
  end.

Definition ci_script (e : env) : sh unit :=
  (* set -e *)
  tag <- expand false "CI_COMMIT_TAG" (CI_COMMIT_TAG e) ;;
  (if String.eqb ("x" ++ tag)%string "x" then run sed_setup_cfg else ret tt) ;;;
  (* set -u *)
  BUILDER_WHEELHOUSE <- expand true "SHARED_PATH" (SHARED_PATH e) ;;
  run assign_pymor_root ;;;
  let PYMOR_ROOT := pymor_root e in
  run (cd PYMOR_ROOT) ;;;
  (* set -x *)
  run (mkdir_p BUILDER_WHEELHOUSE) ;;;
  pyver <- expand true "PYVER" (PYVER e) ;;
  let BUILDER_IMAGE := ("pymor/wheelbuilder:py" ++ pyver)%string in
  run (docker_pull BUILDER_IMAGE) ;;;
  run (docker_run (id_u e) BUILDER_WHEELHOUSE PYMOR_ROOT BUILDER_IMAGE
                  "/usr/local/bin/build-wheels.sh") ;;;
  run (cp (PYMOR_ROOT ++ "/.ci/docker/deploy_checks/Dockerfile")%string
          BUILDER_WHEELHOUSE) ;;;
  test_os <- expand true "TEST_OS" (TEST_OS e) ;;
  for_each (loop_words e test_os)
           (fun os => run (docker_build os BUILDER_WHEELHOUSE)).

Definition run_script (e : env) (cfg : option text) : (unit + stop) * state :=
  ci_script e {| setup_cfg := cfg; trace := [] |}.

(** What the script runs when no command fails. *)
Definition tag_missing (e : env) : bool :=
  match CI_COMMIT_TAG e with
  | None => true
  | Some tag => String.eqb tag ""
  end.

Definition builder_image (pyver : string) : string :=
  ("pymor/wheelbuilder:py" ++ pyver)%string.

(** The commands after the guarded sed: those up to the first use of an
    unset variable. *)
Definition pipeline (e : env) : list action :=
  match SHARED_PATH e with
  | None => []
  | Some wheelhouse =>
      [assign_pymor_root; cd (pymor_root e); mkdir_p wheelhouse]
      ++ match PYVER e with
         | None => []
         | Some pyver =>
             [docker_pull (builder_image pyver);
              docker_run (id_u e) wheelhouse (pymor_root e)
                         (builder_image pyver)
                         "/usr/local/bin/build-wheels.sh";
              cp (pymor_root e ++ "/.ci/docker/deploy_checks/Dockerfile")%string
                 wheelhouse]
             ++ match TEST_OS e with
                | None => []
                | Some test_os =>
                    map (fun os => docker_build os wheelhouse)
                        (loop_words e test_os)
                end
         end
  end.

Definition commands (e : env) : list action :=
  (if tag_missing e then [sed_setup_cfg] else []) ++ pipeline e.

Definition first_unset (e : env) : option string :=
  match SHARED_PATH e, PYVER e, TEST_OS e with
  | None, _, _ => Some "SHARED_PATH"
  | Some _, None, _ => Some "PYVER"
  | Some _, Some _, None => Some "TEST_OS"
  | Some _, Some _, Some _ => None
  end.

(** Whether command [a], run as the [n]-th, returns status 0 when setup.cfg
    was [cfg] at the start. *)
Definition ok_at (cfg : option text) (n : nat) (a : action) : bool :=
  match a with
  | sed_setup_cfg => match cfg with Some _ => true | None => false end
  | _ => succeeds n a
  end.

(** The commands of [l] that are run when the first of them is the [n]-th
    command: all up to and including the first that fails. *)
Fixpoint executed (cfg : option text) (n : nat) (l : list action)
  : list action :=
  match l with
  | [] => []
  | a :: l' => a :: (if ok_at cfg n a then executed cfg (S n) l' else [])
  end.

(** How a run of the commands [l] ends. *)
Fixpoint outcome (cfg : option text) (n : nat) (l : list action)
  : unit + stop :=
  match l with
  | [] => inl tt
  | a :: l' => if ok_at cfg n a then outcome cfg (S n) l' else inr (failed a)
  end.

Definition finish (e : env) (r : unit + stop) : unit + stop :=
  match r, first_unset e with
  | inr f, _ => inr f
  | inl _, Some name => inr (unbound_variable name)
  | inl _, None => inl tt
  end.

End WithCommands.

(** Kinds of commands. *)
Definition is_docker (a : action) : bool :=
  match a with
  | docker_pull _ | docker_run _ _ _ _ _ | docker_build _ _ => true
  | _ => false
  end.

Definition is_build (a : action) : bool :=
  match a with
  | docker_build _ _ => true
  | _ => false
  end.

(** A word: not empty, and without blank, tab or newline. *)
Fixpoint no_ifs (s : string) : bool :=
  match s with
  | EmptyString => true
  | String c s' => negb (is_ifs c) && no_ifs s'
  end.

Definition is_word (s : string) : bool :=
  negb (String.eqb s "") && no_ifs s.

(** An environment for Python 3.7 and two test systems, without a tag, and
    a world in which every command succeeds. *)
Definition ci_env : env :=
  {| CI_COMMIT_TAG := None; SHARED_PATH := Some "/shared"%string;
     PYVER := Some "3.7"%string; TEST_OS := Some "debian centos"%string;
     id_u := "1000"%string; pymor_root := "/src"%string;
     matching := fun _ => [] |}.

Definition all_succeed : nat -> action -> bool := fun _ _ => true.

(** The same with a release tag and [TEST_OS='debian *'], in a repository
    root that holds setup.cfg and src. *)
Definition star_env : env :=
  {| CI_COMMIT_TAG := Some "v1.0"%string; SHARED_PATH := Some "/shared"%string;
     PYVER := Some "3.7"%string; TEST_OS := Some "debian *"%string;
     id_u := "1000"%string; pymor_root := "/src"%string;
     matching := fun w => if String.eqb w "*"
                          then ["setup.cfg"%string; "src"%string] else [] |}.

Definition pep440_cfg : option text :=
  Some (list_ascii_of_string "style = pep440").

End CI.

(** ** The heat-equation notebook *)

Module Heat.

Local Open Scope list_scope.

(** *** Matrices, as numpy builds them in the notebook *)

Definition Q : Set := QArith_base.Q.

Definition q (z : Z) : Q := QArith_base.inject_Z z.

Definition matrix : Type := list (list Q).

Definition zeros (rows cols : nat) : matrix :=
  repeat (repeat (q 0) cols) rows.

(** [np.ones((rows, cols))] *)
Definition ones (rows cols : nat) : matrix :=
  repeat (repeat (q 1) cols) rows.

(** [np.diag(v)] *)
Definition diag (v : list Q) : matrix :=
  map (fun i => map (fun j => if Nat.eqb i j then nth i v (q 0) else (q 0))
                    (seq 0 (List.length v)))
      (seq 0 (List.length v)).

(** [np.eye(n)] *)
Definition eye (n : nat) : matrix := diag (repeat (q 1) n).

(** [np.logspace(start, stop, num)] for integer exponents: the powers of ten
    from [10^start] to [10^stop] in [num] equal steps of the exponent, as
    exact rationals where numpy has the nearest doubles, and only for
    [stop - start] a multiple of [num - 1], as in the notebook's
    [logspace(-1, 3, 5)]. *)
Definition logspace (start stop : Z) (num : nat) : list Q :=
  let step := ((stop - start) / (Z.of_nat num - 1))%Z in
  map (fun i => QArith_base.Qpower (q 10)
                  (start + Z.of_nat i * step)%Z)
      (seq 0 num).

Definition neg (v : list Q) : list Q := map QArith_base.Qopp v.

(** (rows, columns) of a matrix all of whose rows have the same length. *)
Definition shape (m : matrix) : option (nat * nat) :=
  match m with
  | [] => Some (0, 0)
  | row :: rest =>
      if forallb (fun r => Nat.eqb (List.length r) (List.length row)) rest
      then Some (List.length m, List.length row)
      else None
  end.

(** *** Objects of the library *)

Inductive reductor :=
| BTReductor | LQGBTReductor | BRBTReductor | IRKAReductor | TSIAReductor
| OneSidedIRKAReductor | TF_IRKAReductor.

Inductive norm_kind := H2 | Hinf | Hankel.

(** The library is a black box: a model is known by the call that returned
    it.  [reduced R full options args] is the result of [reduce] called with
    [args] on the reductor [R] built on [full] with further arguments
    [options]. *)
Inductive model :=
| discretize_instationary_cg     (* (p, diameter=1/100, nt=100), first result *)
| to_lti (fom : model)
| LTIModel_from_matrices (A B C : matrix) (D E : option matrix)
| TransferFunction (spaces_of : model)   (* (m.input_space, m.output_space, H, dH) *)
| reduced (R : reductor) (full : model) (options args : list arg)
| minus (a b : model)            (* a - b *)
with arg :=
| order (r : nat)
| shifts (sigma : list Q)
| initial (rom0 : model)
| literal (text : string)
| keyword (name value : string).

(** Numbers the notebook prints. *)
Inductive value :=
| attribute (name : string) (m : model)
| norm (k : norm_kind) (m : model)    (* m.h2_norm(), m.hinf_norm(), m.hankel_norm() *)
| h2_by_quadrature (m : model) (epsabs : option string)
    (* np.sqrt(spint.quad(lambda w: spla.norm(m.eval_tf(w * 1j)) ** 2,
                          -np.inf, np.inf, epsabs=...)[0] / 2 / np.pi) *)
| ratio (a b : value).

Inductive curve :=
| mag_plot (m : model) (linestyle : option string)
| line (data : string) (m : model).

(** What a run of the notebook does, in order.  A figure stands for
    [fig, ax = plt.subplots()], the curves drawn on [ax], [ax.set_title] and
    [plt.show()]. *)
Inductive event :=
| Make (m : model)
| Visualize (m : model)
| Print (label : string) (v : value)
| Figure (title : string) (curves : list curve).

(** *** The cells *)

Definition fom : model := discretize_instationary_cg.
Definition lti : model := to_lti fom.

(** Every cell that sets [r] sets it to 5. *)
Definition r : nat := 5.

Section Run.

(** [config.HAVE_SLYCOT] *)
Variable HAVE_SLYCOT : bool.

Definition when_slycot (evs : list event) : list event :=
  if HAVE_SLYCOT then evs else [].

Definition discretize_problem : list event := [Make fom].

Definition visualize_solution : list event := [Visualize fom].

Definition convert_to_lti : list event := [Make lti].

Definition lti_system : list event :=
  [Print "order of the model = " (attribute "order" lti);
   Print "number of inputs   = " (attribute "input_dim" lti);
   Print "number of outputs  = " (attribute "output_dim" lti);
   Figure "System poles" [line "poles" lti];
   Figure "Bode plot of the full model" [mag_plot lti None];
   Figure "Hankel singular values" [line "hsv" lti];
   Print "FOM H_2-norm:    " (norm H2 lti)]
  ++ when_slycot [Print "FOM H_inf-norm:  " (norm Hinf lti)]
  ++ [Print "FOM Hankel-norm: " (norm Hankel lti)].

(** Balanced truncation *)
Definition rom_bt : model :=
  reduced BTReductor lti [] [order r; keyword "tol" "1e-5"].
Definition err_bt : model := minus lti rom_bt.

Definition balanced_truncation : list event :=
  [Make rom_bt;
   Make err_bt;
   Print "BT relative H_2-error:    "
         (ratio (norm H2 err_bt) (norm H2 lti))]
  ++ when_slycot
       [Print "BT relative H_inf-error:  "
              (ratio (norm Hinf err_bt) (norm Hinf lti))]
  ++ [Print "BT relative Hankel-error: "
            (ratio (norm Hankel err_bt) (norm Hankel lti));
      Figure "Bode plot of the full and BT reduced model"
             [mag_plot lti None; mag_plot rom_bt (Some "dashed")];
      Figure "Bode plot of the BT error system" [mag_plot err_bt None]].

(** LQG balanced truncation *)
Definition rom_lqgbt : model :=
  reduced LQGBTReductor lti [] [order r; keyword "tol" "1e-5"].
Definition err_lqgbt : model := minus lti rom_lqgbt.

Definition lqg_balanced_truncation : list event :=
  [Make rom_lqgbt;
   Make err_lqgbt;
   Print "LQGBT relative H_2-error:    "
         (ratio (norm H2 err_lqgbt) (norm H2 lti))]
  ++ when_slycot
       [Print "LQGBT relative H_inf-error:  "
              (ratio (norm Hinf err_lqgbt) (norm Hinf lti))]
  ++ [Print "LQGBT relative Hankel-error: "
            (ratio (norm Hankel err_lqgbt) (norm Hankel lti));
      Figure "Bode plot of the full and LQGBT reduced model"
             [mag_plot lti None; mag_plot rom_lqgbt (Some "dashed")];
      Figure "Bode plot of the LGQBT error system" [mag_plot err_lqgbt None]].

(** Bounded-real balanced truncation *)
Definition rom_brbt : model :=
  reduced BRBTReductor lti [literal "0.34"] [order r; keyword "tol" "1e-5"].
Definition err_brbt : model := minus lti rom_brbt.

Definition bounded_real_balanced_truncation : list event :=
  [Make rom_brbt;
   Make err_brbt;
   Print "BRBT relative H_2-error:    "
         (ratio (norm H2 err_brbt) (norm H2 lti))]
  ++ when_slycot
       [Print "BRBT relative H_inf-error:  "
              (ratio (norm Hinf err_brbt) (norm Hinf lti))]
  ++ [Print "BRBT relative Hankel-error: "
            (ratio (norm Hankel err_brbt) (norm Hankel lti));
      Figure "Bode plot of the full and BRBT reduced model"
             [mag_plot lti None; mag_plot rom_brbt (Some "dashed")];
      Figure "Bode plot of the BRBT error system" [mag_plot err_brbt None]].

(** IRKA *)
Definition sigma : list Q := logspace (-1) 3 r.

Definition rom_irka : model :=
  reduced IRKAReductor lti []
          [order r; shifts sigma; keyword "compute_errors" "True"].
Definition err_irka : model := minus lti rom_irka.

Definition irka : list event :=
  [Make rom_irka;
   Figure "Distances between shifts in IRKA iterations" [line "dist" rom_irka];
   Make err_irka;
   Print "IRKA relative H_2-error:    "
         (ratio (norm H2 err_irka) (norm H2 lti))]
  ++ when_slycot
       [Print "IRKA relative H_inf-error:  "
              (ratio (norm Hinf err_irka) (norm Hinf lti))]
  ++ [Print "IRKA relative Hankel-error: "
            (ratio (norm Hankel err_irka) (norm Hankel lti));
      Figure "Bode plot of the full and IRKA reduced model"
             [mag_plot lti None; mag_plot rom_irka (Some "dashed")];
      Figure "Bode plot of the IRKA error system" [mag_plot err_irka None]].

(** Two-sided iteration; the keyword arguments [input_id], [state_id] and
    [output_id] of [from_matrices] only pass the ids of [lti]'s spaces. *)
Definition Ar : matrix := diag (neg (logspace (-1) 3 r)).
Definition Br : matrix := ones r 1.
Definition Cr : matrix := ones 1 r.
Definition Er : matrix := eye r.

Definition rom0 : model := LTIModel_from_matrices Ar Br Cr None (Some Er).

Definition rom_tsia : model :=
  reduced TSIAReductor lti []
          [initial rom0; keyword "compute_errors" "True"].

Definition tsia : list event := [Make rom0; Make rom_tsia].

(** One-sided IRKA *)
Definition rom_one_sided_irka : model :=
  reduced OneSidedIRKAReductor lti [literal "V"]
          [order r; shifts sigma; keyword "compute_errors" "True"].
Definition err_one_sided_irka : model := minus lti rom_one_sided_irka.

Definition one_sided_irka : list event :=
  [Make rom_one_sided_irka;
   Figure "Distances between shifts in one-sided IRKA iterations"
          [line "dist" rom_one_sided_irka];
   Figure "Poles of the one-sided IRKA ROM" [line "poles" rom_one_sided_irka];
   Make err_one_sided_irka;
   Print "One-sided IRKA relative H_2-error:    "
         (ratio (norm H2 err_one_sided_irka) (norm H2 lti))]
  ++ when_slycot
       [Print "One-sided IRKA relative H_inf-error:  "
              (ratio (norm Hinf err_one_sided_irka) (norm Hinf lti))]
  ++ [Print "One-sided IRKA relative Hankel-error: "
            (ratio (norm Hankel err_one_sided_irka) (norm Hankel lti));
      Figure "Bode plot of the full and one-sided IRKA reduced model"
             [mag_plot lti None; mag_plot rom_one_sided_irka (Some "dashed")];
      Figure "Bode plot of the one-sided IRKA error system"
             [mag_plot err_one_sided_irka None]].

(** Transfer-function IRKA.  The cells that derive [H] and [dH] with sympy
    make no call into the library and print no figure of merit. *)
Definition tf : model := TransferFunction lti.
Definition tf_lti_diff : model := minus tf lti.
Definition tf_h2_norm : value := h2_by_quadrature tf None.
Definition h2_dist : value := h2_by_quadrature tf_lti_diff (Some "1e-16").

Definition rom_tf_irka : model := reduced TF_IRKAReductor tf [] [order r].
Definition err_tf_irka : model := minus tf rom_tf_irka.
Definition tf_irka_h2_error : value :=
  h2_by_quadrature err_tf_irka (Some "1e-16").

Definition err_irka_tf : model := minus tf rom_irka.
Definition irka_h2_error : value := h2_by_quadrature err_irka_tf (Some "1e-16").

Definition tf_irka : list event :=
  [Make tf;
   Make tf_lti_diff;
   Figure "Distance between PDE and discretized transfer function"
          [mag_plot tf_lti_diff None];
   Print "TF H_2-norm  = " tf_h2_norm;
   Print "LTI H_2-norm = " (norm H2 lti);
   Print "TF-LTI relative H_2-distance = " (ratio h2_dist tf_h2_norm);
   Make rom_tf_irka;
   Make err_tf_irka;
   Print "TF-IRKA relative H_2-error = " (ratio tf_irka_h2_error tf_h2_norm);
   Make err_irka_tf;
   Print "IRKA relative H_2-error (from TF) = "
         (ratio irka_h2_error tf_h2_norm)].

Definition notebook : list event :=
  discretize_problem ++ visualize_solution ++ convert_to_lti ++ lti_system
  ++ balanced_truncation ++ lqg_balanced_truncation
  ++ bounded_real_balanced_truncation ++ irka ++ tsia ++ one_sided_irka
  ++ tf_irka.

End Run.

(** *** LTI models *)

(** Modelled from the spec: the class [LTIModel] and its constructor
    [from_matrices] are not among the sources.  The glossary gives an LTI
    model the matrices A, B, C, D and E; the model is valid when the shapes
    fit a system [E x' = A x + B u], [y = C x + D u] with n states, m inputs
    and p outputs. *)
Record LTIModel := {
  A : matrix;
  B : matrix;
  C : matrix;
  D : matrix;
  E : matrix
}.

Definition shape_is (m : matrix) (rows cols : nat) : bool :=
  match shape m with
  | Some (r', c') => Nat.eqb r' rows && Nat.eqb c' cols
  | None => false
  end.

Definition valid (s : LTIModel) : bool :=
  match shape (A s), shape (B s), shape (C s) with
  | Some (n, _), Some (_, m), Some (p, _) =>
      shape_is (A s) n n && shape_is (E s) n n && shape_is (B s) n m
      && shape_is (C s) p n && shape_is (D s) p m
  | _, _, _ => false
  end.

(** Modelled from the spec: [LTIModel.from_matrices(A, B, C, D=None, E=None)].
    A matrix that is left out is the neutral one, the zero matrix for D and
    the identity for E; the call fails when the shapes do not fit. *)
Definition from_matrices (A B C : matrix) (D E : option matrix)
  : option LTIModel :=
  match shape A, shape B, shape C with
  | Some (n, _), Some (_, m), Some (p, _) =>
      let s := {| A := A; B := B; C := C;
                  D := match D with Some d => d | None => zeros p m end;
                  E := match E with Some e => e | None => eye n end |} in
      if valid s then Some s else None
  | _, _, _ => None
  end.

(** The state-space matrices behind a model made by [from_matrices]. *)
Definition matrices_of (m : model) : option LTIModel :=
  match m with
  | LTIModel_from_matrices A B C D E => from_matrices A B C D E
  | _ => None
  end.

(** *** Reading the log *)

Definition reductor_eqb (R R' : reductor) : bool :=
  match R, R' with
  | BTReductor, BTReductor | LQGBTReductor, LQGBTReductor
  | BRBTReductor, BRBTReductor | IRKAReductor, IRKAReductor
  | TSIAReductor, TSIAReductor
  | OneSidedIRKAReductor, OneSidedIRKAReductor
  | TF_IRKAReductor, TF_IRKAReductor => true
  | _, _ => false
  end.

Definition norm_kind_eqb (k k' : norm_kind) : bool :=
  match k, k' with
  | H2, H2 | Hinf, Hinf | Hankel, Hankel => true
  | _, _ => false
  end.

Definition all_reductors : list reductor :=
  [BTReductor; LQGBTReductor; BRBTReductor; IRKAReductor; TSIAReductor;
   OneSidedIRKAReductor; TF_IRKAReductor].

Definition is_lti (m : model) : bool :=
  match m with
  | to_lti discretize_instationary_cg => true
  | _ => false
  end.

Definition is_tf (m : model) : bool :=
  match m with
  | TransferFunction m' => is_lti m'
  | _ => false
  end.

Definition is_rom (m : model) : bool :=
  match m with
  | reduced _ _ _ _ => true
  | _ => false
  end.

Definition is_rom_by (R : reductor) (m : model) : bool :=
  match m with
  | reduced R' _ _ _ => reductor_eqb R R'
  | _ => false
  end.

(** A difference whose second term is a reduced model made by [R].  The
    first term is left open here: this is the widest reading of "error
    system", used where a statement speaks of every such figure; which
    model the first term is ([lti] or [tf]) is said by [relative_to_lti],
    [relative_to_tf] and [relative_error]. *)
Definition is_error_of (R : reductor) (m : model) : bool :=
  match m with
  | minus _ b => is_rom_by R b
  | _ => false
  end.

(** [v] is the [k]-norm of the error system of [R]'s reduced model, taken
    by the library's norm method or, for H2, by quadrature. *)
Definition measures (k : norm_kind) (R : reductor) (v : value) : bool :=
  match v with
  | norm k' e => norm_kind_eqb k k' && is_error_of R e
  | h2_by_quadrature e _ => norm_kind_eqb k H2 && is_error_of R e
  | _ => false
  end.

Fixpoint quantifies (k : norm_kind) (R : reductor) (v : value) : bool :=
  match v with
  | ratio a b => quantifies k R a || quantifies k R b
  | _ => measures k R v
  end.

(** The event prints a figure that involves the [k]-norm of [R]'s error. *)
Definition reports (k : norm_kind) (R : reductor) (ev : event) : bool :=
  match ev with
  | Print _ v => quantifies k R v
  | _ => false
  end.

Definition is_mag_plot_of (p : model -> bool) (c : curve) : bool :=
  match c with
  | mag_plot m _ => p m
  | line _ _ => false
  end.

(** A figure with a magnitude plot of [R]'s reduced model or of its error
    system. *)
Definition bode_plot (R : reductor) (ev : event) : bool :=
  match ev with
  | Figure _ curves =>
      existsb (is_mag_plot_of (fun m => is_rom_by R m || is_error_of R m))
              curves
  | _ => false
  end.

(** The reduced model the notebook makes with each reductor. *)
Definition rom_of (R : reductor) : model :=
  match R with
  | BTReductor => rom_bt
  | LQGBTReductor => rom_lqgbt
  | BRBTReductor => rom_brbt
  | IRKAReductor => rom_irka
  | TSIAReductor => rom_tsia
  | OneSidedIRKAReductor => rom_one_sided_irka
  | TF_IRKAReductor => rom_tf_irka
  end.

(** The reductors whose reduced model gets an error block in the notebook. *)
Definition with_error_block : list reductor :=
  [BTReductor; LQGBTReductor; BRBTReductor; IRKAReductor;
   OneSidedIRKAReductor].

(** The reading of "quantified by all three norms together with a Bode
    comparison" for the reduced model of [R] in a run. *)
Definition fully_assessed (have_slycot : bool) (R : reductor) : Prop :=
  (forall k, existsb (reports k R) (notebook have_slycot) = true)
  /\ existsb (bode_plot R) (notebook have_slycot) = true.

(** The figures of merit: printed values that involve a norm of the error
    system of some reduced model. *)
Definition is_error_figure (v : value) : bool :=
  existsb (fun R => existsb (fun k => quantifies k R v) [H2; Hinf; Hankel])
          all_reductors.

(** [norm_k(lti - rom) / norm_k(lti)] *)
Definition relative_to_lti (v : value) : bool :=
  match v with
  | ratio (norm k (minus a b)) (norm k' c) =>
      norm_kind_eqb k k' && is_lti a && is_rom b && is_lti c
  | _ => false
  end.

(** The H2 norm of [tf - rom] over that of [tf], both by quadrature. *)
Definition relative_to_tf (v : value) : bool :=
  match v with
  | ratio (h2_by_quadrature (minus a b) _) (h2_by_quadrature c _) =>
      is_tf a && is_rom b && is_tf c
  | _ => false
  end.

(** [v] is computed with one of the library's norm methods. *)
Fixpoint uses_norm_method (v : value) : bool :=
  match v with
  | norm _ _ => true
  | ratio a b => uses_norm_method a || uses_norm_method b
  | _ => false
  end.

(** The reading of "every figure of merit is [norm(lti - rom) / norm(lti)]"
    for one event. *)
Definition scored_against_lti (ev : event) : bool :=
  match ev with
  | Print _ v => if is_error_figure v then relative_to_lti v else true
  | _ => true
  end.

(** What holds of every printed figure of merit: relative to [lti] when
    it comes from a norm method, relative to [tf] when it comes from the
    quadrature. *)
Definition scored_relatively (ev : event) : bool :=
  match ev with
  | Print _ v =>
      if is_error_figure v
      then if uses_norm_method v then relative_to_lti v else relative_to_tf v
      else true
  | _ => true
  end.






(** [v] is computed with the norm method of kind [k]. *)
Fixpoint mentions_norm (k : norm_kind) (v : value) : bool :=
  match v with
  | norm k' _ => norm_kind_eqb k k'
  | ratio a b => mentions_norm k a || mentions_norm k b
  | _ => false
  end.

(** The event calls [hinf_norm]. *)
Definition calls_hinf_norm (ev : event) : bool :=
  match ev with
  | Print _ v => mentions_norm Hinf v
  | _ => false
  end.



(** Whether the model [m] is, or is built from, a reduced model made by
    [R]. *)
Fixpoint involves (R : reductor) (m : model) : bool :=
  match m with
  | discretize_instationary_cg => false
  | to_lti m' => involves R m'
  | LTIModel_from_matrices _ _ _ _ _ => false
  | TransferFunction m' => involves R m'
  | reduced R' full options args =>
      reductor_eqb R R' || involves R full
      || existsb (arg_involves R) options || existsb (arg_involves R) args
  | minus a b => involves R a || involves R b
  end
with arg_involves (R : reductor) (a : arg) : bool :=
  match a with
  | initial m => involves R m
  | _ => false
  end.

Fixpoint value_involves (R : reductor) (v : value) : bool :=
  match v with
  | attribute _ m => involves R m
  | norm _ m => involves R m
  | h2_by_quadrature m _ => involves R m
  | ratio a b => value_involves R a || value_involves R b
  end.

Definition curve_involves (R : reductor) (c : curve) : bool :=
  match c with
  | mag_plot m _ => involves R m
  | line _ m => involves R m
  end.

(** The events of a run that have to do with the reduced model of [R]. *)
Definition event_involves (R : reductor) (ev : event) : bool :=
  match ev with
  | Make m => involves R m
  | Visualize m => involves R m
  | Print _ v => value_involves R v
  | Figure _ curves => existsb (curve_involves R) curves
  end.

(** [norm_k(lti - rom) / norm_k(lti)], by the norm methods of the library. *)
Definition relative_error (k : norm_kind) (rom : model) : value :=
  ratio (norm k (minus lti rom)) (norm k lti).

(** The H2 norm of [tf - rom] over that of [tf], both by quadrature, the
    first with [epsabs=1e-16]. *)
Definition relative_h2_error_to_tf (rom : model) : value :=
  ratio (h2_by_quadrature (minus tf rom) (Some "1e-16"%string))
        (h2_by_quadrature tf None).

(** *** The order of the full model *)




(** Two of the printed figures. *)
Definition bt_h2_figure : value :=
  ratio (norm H2 (minus lti rom_bt)) (norm H2 lti).

Definition tf_irka_figure : value :=
  ratio (h2_by_quadrature (minus (TransferFunction lti) rom_tf_irka)
                          (Some "1e-16"%string))
        (h2_by_quadrature (TransferFunction lti) None).

End Heat.

(** ** Facts about strings *)

Module StrFacts.

Import Str.

Lemma append_assoc (a b c : string) : (a ++ b) ++ c = a ++ b ++ c.
Proof.
  induction a as [|ch a IH]; simpl; [reflexivity|].
  now rewrite IH.
Qed.

Lemma append_empty_r (a : string) : a ++ "" = a.
Proof.
  induction a as [|ch a IH]; simpl; [reflexivity|].
  now rewrite IH.
Qed.

Lemma slice_from_append (p s : string) :
  slice_from (String.length p) (p ++ s) = s.
Proof.
  induction p as [|ch p IH]; simpl.
  - now destruct s.
  - exact IH.
Qed.

Lemma occurs_refl (s : string) : occurs s s.
Proof.
  exists "", "". simpl. now rewrite append_empty_r.
Qed.

Lemma occurs_append_l (s a t : string) : occurs s t -> occurs s (a ++ t).
Proof.
  intros (x & y & ->). exists (a ++ x), y.
  now rewrite append_assoc.
Qed.

Lemma occurs_append_r (s t b : string) : occurs s t -> occurs s (t ++ b).
Proof.
  intros (x & y & ->). exists x, (y ++ b).
  now rewrite !append_assoc.
Qed.

Lemma occurs_concat (sep s : string) (l : list string) :
  In s l -> occurs s (String.concat sep l).
Proof.
  induction l as [|x l IH]; simpl; [tauto|].
  intros [->|Hin].
  - destruct l; [apply occurs_refl|].
    apply occurs_append_r, occurs_refl.
  - destruct l as [|y l]; [destruct Hin|].
    apply occurs_append_l, occurs_append_l, IH, Hin.
Qed.

End StrFacts.

(** ** Properties of the launcher *)

Module LauncherSpec.

Import Str StrFacts Launcher.

Lemma index_of_member (x : string) (l : list string) :
  In x l ->
  exists j, index x l = Some j /\ nth_error l j = Some x /\
            forall k, k < j -> nth_error l k <> Some x.
Proof.
  induction l as [|y l IH]; simpl; [tauto|].
  intros Hin. destruct (String.eqb_spec y x) as [->|Hne].
  - exists 0. split; [reflexivity|]. split; [reflexivity|].
    intros k Hk; lia.
  - destruct Hin as [Heq|Hin]; [contradiction|].
    destruct (IH Hin) as (j & Hj & Hnth & Hfirst).
    exists (S j). rewrite Hj. split; [reflexivity|]. split; [exact Hnth|].
    intros [|k] Hk; simpl.
    + intros [= ?]. contradiction.
    + apply Hfirst. lia.
Qed.

Lemma contains_In (x : string) (l : list string) :
  contains x l = true <-> In x l.
Proof.
  unfold contains. rewrite existsb_exists. split.
  - intros (y & Hin & Heq). apply String.eqb_eq in Heq. now subst.
  - intros Hin. exists x. split; [exact Hin|apply String.eqb_refl].
Qed.

Section WithEnvironment.

Variable found : list string.
Variable demo : string -> list string -> option termination.

Lemma discover_acc (names ms ss : list string) :
  fold_left
    (fun (acc : list string * list string) module_name =>
       let '(modules, shorts) := acc in
       let short := slice_from (String.length "pymordemos.") module_name in
       ((modules ++ [module_name])%list, (shorts ++ [short])%list))
    names (ms, ss)
  = ((ms ++ names)%list,
     (ss ++ map (slice_from (String.length "pymordemos.")) names)%list).
Proof.
  revert ms ss. induction names as [|n names IH]; intros ms ss.
  - simpl. now rewrite !app_nil_r.
  - cbn [fold_left map]. rewrite IH. now rewrite <- !app_assoc.
Qed.

Lemma modules_eq : modules found = map (String.append "pymordemos.") found.
Proof.
  unfold modules, discover. rewrite discover_acc. reflexivity.
Qed.

Lemma shorts_eq : shorts found = found.
Proof.
  unfold shorts, discover. rewrite discover_acc. cbn [snd app].
  unfold walk_packages. rewrite map_map.
  rewrite <- (map_id found) at 2. apply map_ext. intros n.
  exact (slice_from_append "pymordemos." n).
Qed.

Lemma launcher_dispatch (prog a1 : string) (options : list string)
    (j : nat) (m : string) :
  contains a1 (shorts found) = true ->
  index a1 (shorts found) = Some j ->
  nth_error (modules found) j = Some m ->
  launcher found demo (prog :: a1 :: options) =
    (inr (after_demo (demo m (prog :: options))),
     {| argv := prog :: options; stdout := [];
        runs := [the_call m (prog :: options)] |}).
Proof.
  intros Hin Hidx Hnth.
  unfold launcher, main, bind, argv_get, argv_len, of_option, ret. cbn.
  rewrite Hin, Hidx. cbn. rewrite Hnth. cbn.
  unfold _run, bind, argv_del, run_module, sys_exit, raise. cbn.
  destruct (demo m (prog :: options)); reflexivity.
Qed.

Lemma launcher_usage (prog : string) (rest : list string) :
  match rest with
  | [] => True
  | a1 :: _ => contains a1 (shorts found) = false
  end ->
  launcher found demo (prog :: rest) =
    (inr (Exited 0),
     {| argv := prog :: rest;
        stdout := [usage_msg found prog ++ nl]; runs := [] |}).
Proof.
  intros H.
  unfold launcher, main, bind, argv_get, argv_len, of_option, ret.
  destruct rest as [|a1 rest]; cbn.
  - reflexivity.
  - rewrite H. reflexivity.
Qed.

Lemma module_at (i : nat) (module_name : string) :
  nth_error (modules found) i = Some module_name ->
  exists n, nth_error found i = Some n /\
            module_name = "pymordemos." ++ n /\
            slice_from (String.length "pymordemos.") module_name = n.
Proof.
  rewrite modules_eq. intros H.
  rewrite nth_error_map in H.
  destruct (nth_error found i) as [n|]; [|discriminate].
  cbn in H. injection H as <-.
  exists n. split; [reflexivity|]. split; [reflexivity|].
  exact (slice_from_append "pymordemos." n).
Qed.


(** C1, as stated, fails: a demo that ends with [sys.exit(3)] ends the
    process with status 3; the launcher's own [sys.exit(0)] is not
    reached. *)
Lemma demo_exit_status_is_kept :
  nth_error (modules two_demos) 0 = Some "pymordemos.burgers"
  /\ launcher two_demos (exiting 3) ["pymor-demo"; "burgers"; "1"] =
       (inr (Exited 3),
        {| argv := ["pymor-demo"; "1"]; stdout := [];
           runs := [{| mod_name := "pymordemos.burgers";
                       run_name := "__main__"; alter_sys := true;
                       argv_at_call := ["pymor-demo"; "1"] |}] |})
  /\ exit_status (fst (launcher two_demos (exiting 3)
                         ["pymor-demo"; "burgers"; "1"])) = 3%Z
  /\ ~ (forall found demo prog options i module_name,
          nth_error (modules found) i = Some module_name ->
          exit_status
            (fst (launcher found demo
                    (prog :: slice_from (String.length "pymordemos.")
                                        module_name :: options))) = 0%Z).
Proof.
  split; [reflexivity|]. split; [reflexivity|]. split; [reflexivity|].
  intros H.
  specialize (H two_demos (exiting 3) "pymor-demo" ["1"] 0
                "pymordemos.burgers" eq_refl).
  discriminate H.
Qed.

(** C1, amended: for every discovered demo module, the launcher called
    with that module's short name (its name without the leading
    "pymordemos.") as first argument runs exactly that module, once, with
    run_name "__main__"; when the run returns the launcher exits with
    status 0, and when the demo ends the process itself the process ends
    as the demo ended; the short name stands in [shorts] at the index the
    module has in [modules], and looking it up selects that module. *)
Theorem launcher_runs_named_demo (prog : string) (options : list string)
    (i : nat) (module_name : string) :
  nth_error (modules found) i = Some module_name ->
  let short := slice_from (String.length "pymordemos.") module_name in
  launcher found demo (prog :: short :: options) =
    (inr (match demo module_name (prog :: options) with
          | None => Exited 0
          | Some t => t
          end),
     {| argv := prog :: options; stdout := [];
        runs := [{| mod_name := module_name; run_name := "__main__";
                    alter_sys := true; argv_at_call := prog :: options |}] |})
  /\ (demo module_name (prog :: options) = None ->
      fst (launcher found demo (prog :: short :: options)) = inr (Exited 0)
      /\ exit_status (fst (launcher found demo (prog :: short :: options)))
         = 0%Z)
  /\ nth_error (shorts found) i = Some short
  /\ exists j, index short (shorts found) = Some j /\
               nth_error (modules found) j = Some module_name /\
               (NoDup (modules found) -> j = i).
Proof.
  intros Hi short.
  destruct (module_at i module_name Hi) as (n & Hn & Hname & Hshort).
  fold short in Hshort.
  assert (Hs : nth_error (shorts found) i = Some short)
    by (rewrite shorts_eq, Hshort; exact Hn).
  assert (Hin : In short (shorts found)) by (eapply nth_error_In; exact Hs).
  destruct (index_of_member _ _ Hin) as (j & Hj & Hnth & _).
  assert (Hm : nth_error (modules found) j = Some module_name).
  { rewrite modules_eq. rewrite shorts_eq in Hnth.
    rewrite nth_error_map, Hnth. cbn [option_map].
    now rewrite Hname, Hshort. }
  assert (Hrun := launcher_dispatch prog short options j module_name
                    (proj2 (contains_In _ _) Hin) Hj Hm).
  unfold after_demo in Hrun.
  split; [exact Hrun|]. split; [|split; [exact Hs|]].
  - intros Hdemo. rewrite Hrun, Hdemo. split; reflexivity.
  - exists j. split; [exact Hj|]. split; [exact Hm|].
    intros Hnd. rewrite NoDup_nth_error in Hnd. apply Hnd.
    + apply nth_error_Some. now rewrite Hm.
    + now rewrite Hm, Hi.
Qed.

(** C7: with fewer than two arguments, or with a first argument that is no
    discovered short name, the launcher prints the usage message, which
    contains every short name, and exits with status 0; and whatever the
    arguments, the launcher ends with status 0 unless the demo it runs ends
    the process itself. *)
Theorem launcher_usage_exits_zero (args : list string) :
  args <> [] ->
  ((List.length args < 2 \/
    exists a1, nth_error args 1 = Some a1 /\ contains a1 (shorts found) = false) ->
   launcher found demo args =
     (inr (Exited 0),
      {| argv := args;
         stdout := [usage_msg found (hd "" args) ++ nl]; runs := [] |})
   /\ exit_status (fst (launcher found demo args)) = 0%Z
   /\ forall s, In s (shorts found) -> occurs s (usage_msg found (hd "" args)))
  /\ (fst (launcher found demo args) = inr (Exited 0) \/
      exists m seen t, demo m seen = Some t /\
                       fst (launcher found demo args) = inr t).
Proof.
  intros Hne. destruct args as [|prog rest]; [contradiction|]. split.
  - intros Hcase.
    assert (Hrest : match rest with
                    | [] => True
                    | a1 :: _ => contains a1 (shorts found) = false
                    end).
    { destruct rest as [|a1 rest]; [exact I|].
      destruct Hcase as [Hlen|(a & Ha & Hc)]; [cbn in Hlen; lia|].
      cbn in Ha. now injection Ha as ->. }
    rewrite (launcher_usage prog rest Hrest). cbn [hd fst exit_status].
    split; [reflexivity|]. split; [reflexivity|].
    intros s Hs. unfold usage_msg.
    do 12 apply occurs_append_l. apply occurs_append_r.
    apply occurs_concat, Hs.
  - destruct rest as [|a1 options].
    + left. now rewrite (launcher_usage prog [] I).
    + destruct (contains a1 (shorts found)) eqn:Hc.
      * assert (Hin := proj1 (contains_In _ _) Hc).
        destruct (index_of_member _ _ Hin) as (j & Hj & Hnth & _).
        assert (Hm : exists m, nth_error (modules found) j = Some m).
        { rewrite modules_eq, nth_error_map.
          rewrite shorts_eq in Hnth. rewrite Hnth. now eexists. }
        destruct Hm as (m & Hm).
        rewrite (launcher_dispatch prog a1 options j m Hc Hj Hm).
        destruct (demo m (prog :: options)) as [t|] eqn:Hd.
        -- right. exists m, (prog :: options), t. now split.
        -- now left.
      * left. now rewrite (launcher_usage prog (a1 :: options) Hc).
Qed.

(** C8, amended: before the selected module is run, the launcher deletes
    the element at index 1 of sys.argv and nothing else, so that
    run_module is called with sys.argv holding the program name followed
    by the remaining options, unchanged and in order; as the call sets
    alter_sys, the module itself finds its own file in sys.argv[0],
    followed by the same options. *)
Theorem launcher_drops_only_demo_name (prog name : string)
    (options : list string) :
  contains name (shorts found) = true ->
  exists m,
    runs (snd (launcher found demo (prog :: name :: options))) =
      [{| mod_name := m; run_name := "__main__"; alter_sys := true;
          argv_at_call := prog :: options |}]
    /\ argv (snd (launcher found demo (prog :: name :: options))) =
         prog :: options
    /\ prog :: options =
         (firstn 1 (prog :: name :: options)
            ++ skipn 2 (prog :: name :: options))%list
    /\ m = "pymordemos." ++ name
    /\ forall file_of c,
         In c (runs (snd (launcher found demo (prog :: name :: options)))) ->
         argv_in_module file_of c = file_of m :: options
         /\ tl (argv_in_module file_of c)
            = skipn 2 (prog :: name :: options).
Proof.
  intros Hc.
  assert (Hin := proj1 (contains_In _ _) Hc).
  destruct (index_of_member _ _ Hin) as (j & Hj & Hnth & _).
  assert (Hm : nth_error (modules found) j = Some ("pymordemos." ++ name)).
  { rewrite modules_eq, nth_error_map.
    rewrite shorts_eq in Hnth. now rewrite Hnth. }
  exists ("pymordemos." ++ name).
  rewrite (launcher_dispatch prog name options j _ Hc Hj Hm).
  cbn [snd runs argv].
  split; [reflexivity|]. split; [reflexivity|]. split; [reflexivity|].
  split; [reflexivity|].
  intros file_of c [<-|[]]. split; reflexivity.
Qed.

End WithEnvironment.

(** The launcher on a package with the demos burgers and thermalblock. *)

Lemma launcher_runs_named_demo_witness :
  nth_error (modules two_demos) 1 = Some "pymordemos.thermalblock"
  /\ launcher two_demos returning ["pymor-demo"; "thermalblock"; "--plot"] =
       (inr (Exited 0),
        {| argv := ["pymor-demo"; "--plot"]; stdout := [];
           runs := [{| mod_name := "pymordemos.thermalblock";
                       run_name := "__main__"; alter_sys := true;
                       argv_at_call := ["pymor-demo"; "--plot"] |}] |}).
Proof.
  split; [reflexivity|].
  exact (proj1 (launcher_runs_named_demo
                  two_demos returning
                  "pymor-demo" ["--plot"] 1 "pymordemos.thermalblock"
                  eq_refl)).
Defined.

Lemma launcher_usage_exits_zero_witness :
  ["pymor-demo"] <> []
  /\ List.length ["pymor-demo"] < 2
  /\ exit_status (fst (launcher two_demos returning ["pymor-demo"])) = 0%Z
  /\ occurs "thermalblock" (usage_msg two_demos "pymor-demo").
Proof.
  assert (Hne : ["pymor-demo"] <> []) by discriminate.
  assert (Hlen : List.length ["pymor-demo"] < 2) by (simpl; lia).
  split; [exact Hne|]. split; [exact Hlen|].
  destruct (launcher_usage_exits_zero two_demos returning
              ["pymor-demo"] Hne) as [Husage _].
  destruct (Husage (or_introl Hlen)) as (_ & Hstatus & Hlist).
  split; [exact Hstatus|]. apply Hlist. simpl. tauto.
Defined.

Lemma launcher_drops_only_demo_name_witness :
  contains "burgers" (shorts two_demos) = true
  /\ exists m,
       runs (snd (launcher two_demos returning
                    ["pymor-demo"; "burgers"; "1"; "-h"])) =
         [{| mod_name := m; run_name := "__main__"; alter_sys := true;
             argv_at_call := ["pymor-demo"; "1"; "-h"] |}].
Proof.
  split; [reflexivity|].
  destruct (launcher_drops_only_demo_name two_demos returning
              "pymor-demo" "burgers" ["1"; "-h"] eq_refl)
    as (m & Hruns & _).
  exists m. exact Hruns.
Defined.

(** C8, as stated, fails: the module does not find the program name in
    sys.argv[0] but its own file. *)
Lemma demo_sees_its_own_file :
  runs (snd (launcher two_demos returning
               ["pymor-demo"; "burgers"; "1"; "-h"]))
  = [the_call "pymordemos.burgers" ["pymor-demo"; "1"; "-h"]]
  /\ argv_in_module installed
       (the_call "pymordemos.burgers" ["pymor-demo"; "1"; "-h"])
     = ["/usr/lib/python3/site-packages/pymordemos/burgers.py"; "1"; "-h"]
  /\ argv_in_module installed
       (the_call "pymordemos.burgers" ["pymor-demo"; "1"; "-h"])
     <> ["pymor-demo"; "1"; "-h"]
  /\ ~ (forall file_of found demo prog name options c,
          contains name (shorts found) = true ->
          In c (runs (snd (launcher found demo (prog :: name :: options)))) ->
          argv_in_module file_of c = prog :: options).
Proof.
  split; [reflexivity|]. split; [reflexivity|]. split; [discriminate|].
  intros H.
  specialize (H installed two_demos returning "pymor-demo" "burgers"
                ["1"; "-h"]
                (the_call "pymordemos.burgers" ["pymor-demo"; "1"; "-h"])
                eq_refl (or_introl eq_refl)).
  discriminate H.
Qed.

End LauncherSpec.

(** ** Properties of the CI script *)

Module CISpec.

Import CI.

Local Open Scope list_scope.

(** *** sed *)

Lemma strip_prefix_app (p s rest : text) :
  strip_prefix p s = Some rest <-> s = p ++ rest.
Proof.
  revert s. induction p as [|a p IH]; intros s; simpl.
  - split; [intros [= ->]|intros ->]; reflexivity.
  - destruct s as [|b s].
    + split; discriminate.
    + destruct (Ascii.eqb_spec a b) as [->|Hne].
      * rewrite IH. split; [intros ->|intros [= ->]]; reflexivity.
      * split; [discriminate|]. intros [= -> _]. contradiction.
Qed.

Lemma join_cons (sep x : text) (l : list text) :
  l <> [] -> join sep (x :: l) = x ++ sep ++ join sep l.
Proof.
  destruct l; [contradiction|reflexivity].
Qed.

Lemma join_head (sep x : text) (l : list text) :
  exists tail, join sep (x :: l) = x ++ tail.
Proof.
  destruct l as [|y l].
  - exists []. simpl. now rewrite app_nil_r.
  - now exists (sep ++ join sep (y :: l)).
Qed.

Lemma occurs_nil (pat : text) : pat <> [] -> ~ occurs pat [].
Proof.
  intros Hne (a & b & H). symmetry in H.
  apply app_eq_nil in H. destruct H as [_ H].
  apply app_eq_nil in H. now destruct H.
Qed.

Lemma occurs_cons (pat : text) (c : ascii) (s : text) :
  occurs pat (c :: s) -> (exists rest, c :: s = pat ++ rest) \/ occurs pat s.
Proof.
  intros ([|c' a] & b & H).
  - left. now exists b.
  - right. exists a, b. now injection H.
Qed.

(** One line: the scan cuts the line at the matches it replaces. *)
Lemma substitute_parts (pat rep : text) (fuel : nat) :
  pat <> [] ->
  forall line, List.length line <= fuel ->
    replaced_everywhere pat rep line (substitute fuel pat rep line).
Proof.
  intros Hne. induction fuel as [|fuel IH]; intros line Hlen.
  - destruct line; [|simpl in Hlen; lia].
    exists [[]]. repeat split; try discriminate.
    constructor; [now apply occurs_nil|constructor].
  - destruct line as [|c line'].
    + exists [[]]. repeat split; try discriminate.
      constructor; [now apply occurs_nil|constructor].
    + cbn [substitute].
      destruct (strip_prefix pat (c :: line')) as [rest|] eqn:Hp.
      * apply strip_prefix_app in Hp.
        assert (Hrest : List.length rest <= fuel).
        { apply (f_equal (@List.length _)) in Hp.
          rewrite length_app in Hp. simpl in Hp, Hlen.
          destruct pat; [contradiction|]. simpl in Hp. lia. }
        destruct (IH rest Hrest) as (parts & Hparts & Hb & Ha & Hall).
        exists ([] :: parts). split; [discriminate|].
        rewrite !join_cons by assumption. simpl.
        split; [now rewrite Hp, Hb|]. split; [now rewrite Ha|].
        constructor; [now apply occurs_nil|assumption].
      * assert (Hline : List.length line' <= fuel) by (simpl in Hlen; lia).
        destruct (IH line' Hline) as (parts & Hparts & Hb & Ha & Hall).
        destruct parts as [|g gs]; [contradiction|].
        exists ((c :: g) :: gs). split; [discriminate|].
        split; [|split].
        -- rewrite Hb. destruct gs; reflexivity.
        -- rewrite Ha. destruct gs; reflexivity.
        -- apply Forall_cons_iff in Hall. destruct Hall as [Hg Hgs].
           constructor; [|assumption].
           intros Hocc. apply occurs_cons in Hocc.
           destruct Hocc as [(tail & Htail)|Hocc]; [|contradiction].
           destruct (join_head pat g gs) as (more & Hmore).
           assert (Hs : strip_prefix pat (c :: line') = Some (tail ++ more)).
           { apply strip_prefix_app. rewrite Hb, Hmore.
             change (c :: g ++ more) with ((c :: g) ++ more).
             rewrite Htail. now rewrite app_assoc. }
           congruence.
Qed.

Lemma s_g_parts (pat rep line : text) :
  pat <> [] -> replaced_everywhere pat rep line (s_g pat rep line).
Proof.
  intros Hne. apply substitute_parts; [assumption|lia].
Qed.

(** *** Lines *)

Lemma lines_not_nil (s : text) : lines s <> [].
Proof.
  destruct s as [|c s]; simpl; [discriminate|].
  destruct (Ascii.eqb c newline); [discriminate|].
  destruct (lines s); discriminate.
Qed.

Lemma join_lines (s : text) : join [newline] (lines s) = s.
Proof.
  induction s as [|c s IH]; [reflexivity|].
  cbn [lines]. destruct (Ascii.eqb_spec c newline) as [->|Hne].
  - rewrite join_cons by apply lines_not_nil. now rewrite IH.
  - pose proof (lines_not_nil s) as Hnn.
    destruct (lines s) as [|l ls]; [contradiction|].
    rewrite <- IH. destruct ls; reflexivity.
Qed.

(** A pattern without [c] that occurs in [a ++ c :: b] lies in [a] or in
    [b]. *)
Lemma prefix_before (c : ascii) (pat y a b : text) :
  ~ In c pat -> pat ++ y = a ++ c :: b -> exists a', a = pat ++ a'.
Proof.
  revert a. induction pat as [|p0 pat IH]; intros a Hc H.
  - now exists a.
  - destruct a as [|a0 a]; simpl in H.
    + injection H as -> _. exfalso. apply Hc. now left.
    + injection H as -> H.
      destruct (IH a) as (a' & ->); [|exact H|now exists a'].
      intros Hin. apply Hc. now right.
Qed.

Lemma occurs_across (c : ascii) (pat a b : text) :
  ~ In c pat -> occurs pat (a ++ c :: b) -> occurs pat a \/ occurs pat b.
Proof.
  intros Hc. induction a as [|a0 a IH]; intros (x & y & H).
  - destruct x as [|x0 x]; simpl in H.
    + destruct pat as [|p0 pat].
      * right. now exists [], b.
      * injection H as -> _. exfalso. apply Hc. now left.
    + injection H as _ ->. right. now exists x, y.
  - destruct x as [|x0 x].
    + left. simpl in H. symmetry in H.
      destruct (prefix_before c pat y (a0 :: a) b Hc H) as (a' & Ha).
      exists [], a'. exact Ha.
    + simpl in H. injection H as _ H.
      destruct IH as [(u & v & ->)|Hb]; [now exists x, y| |now right].
      left. now exists (a0 :: u), v.
Qed.

Lemma join_merge (sep mid last g : text) (init gs : list text) :
  join sep (init ++ (last ++ mid ++ g) :: gs)
  = join sep (init ++ [last]) ++ mid ++ join sep (g :: gs).
Proof.
  induction init as [|i init IH].
  - simpl. destruct gs as [|y gs]; [reflexivity|].
    now rewrite <- !app_assoc.
  - cbn [app]. rewrite !join_cons by (now destruct init).
    rewrite IH. now rewrite <- !app_assoc.
Qed.

(** The whole file: what holds line by line holds for the file, since no
    match spans a newline. *)
Lemma lines_parts (pat rep : text) (ls : list text) :
  pat <> [] -> ~ In newline pat -> ls <> [] ->
  replaced_everywhere pat rep
    (join [newline] ls) (join [newline] (map (s_g pat rep) ls)).
Proof.
  intros Hne Hnl. induction ls as [|l ls IH]; [contradiction|]. intros _.
  destruct ls as [|l2 ls].
  - simpl. now apply s_g_parts.
  - destruct IH as (parts2 & Hp2 & Hb2 & Ha2 & Hall2); [discriminate|].
    destruct (s_g_parts pat rep l Hne) as (parts1 & Hp1 & Hb1 & Ha1 & Hall1).
    destruct parts2 as [|g gs]; [contradiction|].
    destruct (exists_last Hp1) as (init & last & ->).
    exists (init ++ (last ++ [newline] ++ g) :: gs).
    split; [now destruct init|].
    rewrite !join_merge, <- Hb1, <- Hb2, <- Ha1, <- Ha2.
    split; [reflexivity|]. split; [reflexivity|].
    apply Forall_app in Hall1. destruct Hall1 as [Hinit Hlast].
    apply Forall_cons_iff in Hlast. destruct Hlast as [Hl _].
    apply Forall_cons_iff in Hall2. destruct Hall2 as [Hg Hgs].
    apply Forall_app. split; [assumption|].
    constructor; [|assumption].
    intros Hocc. apply occurs_across in Hocc; tauto.
Qed.

Lemma sed_s_g_parts (pat rep file : text) :
  pat <> [] -> ~ In newline pat ->
  replaced_everywhere pat rep file (sed_s_g pat rep file).
Proof.
  intros Hne Hnl. unfold sed_s_g.
  rewrite <- (join_lines file) at 1.
  apply lines_parts; [assumption|assumption|apply lines_not_nil].
Qed.

Lemma sed_setup_cfg_parts (file : text) :
  replaced_everywhere pattern replacement file
    (sed_s_g pattern replacement file).
Proof.
  apply sed_s_g_parts; [discriminate|].
  unfold pattern, newline. simpl. intros H.
  repeat (destruct H as [H|H]; [discriminate|]). exact H.
Qed.

(** *** The parts are determined by the text *)

(** A pattern whose first character does not come again in it cannot
    overlap a shifted copy of itself. *)
Lemma no_shift (c0 : ascii) (rest d R R' : text) :
  ~ In c0 rest ->
  (c0 :: rest) ++ R = d ++ (c0 :: rest) ++ R' ->
  d = [] \/ exists l, d = (c0 :: rest) ++ l.
Proof.
  intros Hc H. destruct d as [|d0 d]; [now left|]. right.
  simpl in H. injection H as <- H.
  destruct (prefix_before c0 rest R d (rest ++ R') Hc H) as (l & ->).
  now exists l.
Qed.

Lemma head_unique (c0 : ascii) (rest x x' R R' : text) :
  ~ In c0 rest ->
  ~ occurs (c0 :: rest) x -> ~ occurs (c0 :: rest) x' ->
  x ++ (c0 :: rest) ++ R = x' ++ (c0 :: rest) ++ R' ->
  x = x'.
Proof.
  intros Hc Hx Hx' H. apply app_eq_app in H.
  destruct H as (l & [[-> H]|[-> H]]).
  - destruct (no_shift c0 rest l R' R Hc H) as [->|(l' & ->)].
    + now rewrite app_nil_r.
    + exfalso. apply Hx. now exists x', l'.
  - destruct (no_shift c0 rest l R R' Hc H) as [->|(l' & ->)].
    + now rewrite app_nil_r.
    + exfalso. apply Hx'. now exists x, l'.
Qed.

Lemma parts_unique (c0 : ascii) (rest : text) (parts parts' : list text) :
  ~ In c0 rest ->
  parts <> [] -> parts' <> [] ->
  Forall (fun part => ~ occurs (c0 :: rest) part) parts ->
  Forall (fun part => ~ occurs (c0 :: rest) part) parts' ->
  join (c0 :: rest) parts = join (c0 :: rest) parts' ->
  parts = parts'.
Proof.
  intros Hc. revert parts'.
  induction parts as [|x ps IH]; intros parts' Hne Hne' Hall Hall' H;
    [contradiction|].
  destruct parts' as [|x' ps']; [contradiction|].
  apply Forall_cons_iff in Hall. destruct Hall as [Hx Hps].
  apply Forall_cons_iff in Hall'. destruct Hall' as [Hx' Hps'].
  destruct ps as [|y ps], ps' as [|y' ps'].
  - simpl in H. now subst.
  - exfalso. apply Hx. simpl in H. rewrite H.
    now exists x', (join (c0 :: rest) (y' :: ps')).
  - exfalso. apply Hx'. simpl in H. rewrite <- H.
    now exists x, (join (c0 :: rest) (y :: ps)).
  - rewrite !join_cons in H by discriminate.
    assert (Hxx : x = x') by (eapply head_unique; eassumption).
    subst x'. apply app_inv_head in H. apply app_inv_head in H.
    f_equal. apply IH; [discriminate|discriminate|assumption|assumption|exact H].
Qed.

(** With such a pattern, [replaced_everywhere] leaves one result only. *)
Lemma replaced_everywhere_unique (c0 : ascii) (rest rep before a1 a2 : text) :
  ~ In c0 rest ->
  replaced_everywhere (c0 :: rest) rep before a1 ->
  replaced_everywhere (c0 :: rest) rep before a2 ->
  a1 = a2.
Proof.
  intros Hc (p1 & Hn1 & Hb1 & -> & Hall1) (p2 & Hn2 & Hb2 & -> & Hall2).
  rewrite (parts_unique c0 rest p1 p2 Hc Hn1 Hn2 Hall1 Hall2); [reflexivity|].
  now rewrite <- Hb1, <- Hb2.
Qed.

Lemma setup_cfg_result_unique (before a1 a2 : text) :
  replaced_everywhere pattern replacement before a1 ->
  replaced_everywhere pattern replacement before a2 ->
  a1 = a2.
Proof.
  apply replaced_everywhere_unique. simpl. intros H.
  repeat (destruct H as [H|H]; [discriminate|]). exact H.
Qed.

(** *** Words without patterns *)

Lemma has_pattern_char_append (a b : string) :
  has_pattern_char (a ++ b)%string
  = has_pattern_char a || has_pattern_char b.
Proof.
  induction a as [|c a IH]; [reflexivity|].
  cbn [String.append has_pattern_char]. now rewrite IH, orb_assoc.
Qed.

Lemma split_words_plain (s : string) :
  has_pattern_char s = false ->
  forall word, has_pattern_char word = false ->
    Forall (fun w => has_pattern_char w = false) (split_words word s).
Proof.
  induction s as [|c s IH]; intros Hs word Hw; cbn [split_words].
  - destruct (String.eqb word ""); [constructor|now repeat constructor].
  - cbn [has_pattern_char] in Hs. apply orb_false_iff in Hs.
    destruct Hs as [Hc Hs]. destruct (is_ifs c).
    + destruct (String.eqb word ""); [now apply IH|].
      constructor; [exact Hw|now apply IH].
    + apply IH; [exact Hs|]. rewrite has_pattern_char_append, Hw.
      cbn [has_pattern_char]. now rewrite Hc.
Qed.

(** Without [*], [?] and [[] in TEST_OS the loop goes through the words of
    TEST_OS themselves. *)
Lemma loop_words_plain (e : env) (test_os : string) :
  has_pattern_char test_os = false ->
  loop_words e test_os = fields test_os.
Proof.
  intros Hs. unfold loop_words, fields.
  pose proof (split_words_plain test_os Hs ""%string eq_refl) as Hall.
  induction Hall as [|w l Hw _ IH]; [reflexivity|].
  cbn [flat_map]. unfold pathname_expansion at 1. rewrite Hw, IH.
  reflexivity.
Qed.

(** *** The script as a list of commands *)

Section WithCommands.

Variable succeeds : nat -> action -> bool.

Lemma for_each_map {X Y} (f : X -> Y) (body : Y -> sh unit) (l : list X)
    (st : state) :
  for_each (map f l) body st = for_each l (fun x => body (f x)) st.
Proof.
  revert st. induction l as [|x l IH]; intros st; [reflexivity|].
  cbn [map for_each]. unfold bind.
  destruct (body (f x) st) as [[[]|e] st']; [apply IH|reflexivity].
Qed.

(** The script runs [commands e] one after the other and stops at the
    first that fails; when none fails it stops at the first unset
    variable, if there is one. *)
Lemma script_as_commands (e : env) (st : state) :
  ci_script succeeds e st =
    (finish e (fst (for_each (commands e) (run succeeds) st)),
     snd (for_each (commands e) (run succeeds) st)).
Proof.
  destruct e as [tag shared pyver test_os uid root files].
  unfold ci_script, commands, pipeline, finish, first_unset, tag_missing.
  cbn [CI_COMMIT_TAG SHARED_PATH PYVER TEST_OS id_u pymor_root].
  assert (Hx : forall t, (("x" ++ t)%string =? "x")%string = (t =? "")%string)
    by (intros [|c t]; reflexivity).
  unfold builder_image.
  destruct tag as [tag|]; cbn [bind expand]; unfold bind at 1;
    cbn [expand]; rewrite ?Hx;
    [destruct (tag =? "")%string|cbn [String.eqb]];
    destruct shared as [wheelhouse|], pyver as [pyver|],
             test_os as [test_os|];
    cbn [app for_each]; rewrite ?for_each_map; cbv beta;
    unfold bind, expand, ret;
    repeat match goal with
      | |- context [run succeeds ?a ?s] =>
          let H := fresh in
          destruct (run succeeds a s) as [[[]|?] ?] eqn:H;
          cbn [fst snd]; try reflexivity
      end;
    rewrite ?for_each_map; cbv beta;
    repeat match goal with
      | |- context [for_each ?l ?b ?s] =>
          destruct (for_each l b s) as [[[]|?] ?]; cbn [fst snd]
      end;
    try reflexivity.
Qed.

(** *** Running a list of commands *)

Lemma status_ok_at (st : state) (a : action) :
  status_ok succeeds st a
  = ok_at succeeds (setup_cfg st) (List.length (trace st)) a.
Proof.
  now destruct a.
Qed.

Lemma ok_at_exists (cfg cfg' : option text) (n : nat) (a : action) :
  (cfg = None <-> cfg' = None) ->
  ok_at succeeds cfg n a = ok_at succeeds cfg' n a.
Proof.
  intros H. destruct a; try reflexivity. simpl.
  destruct cfg, cfg'; try reflexivity.
  - destruct H as [_ H]. now discriminate H.
  - destruct H as [H _]. now discriminate H.
Qed.

Lemma executed_exists (cfg cfg' : option text) (l : list action) :
  (cfg = None <-> cfg' = None) ->
  forall n, executed succeeds cfg n l = executed succeeds cfg' n l.
Proof.
  intros H. induction l as [|a l IH]; intros n; [reflexivity|].
  simpl. now rewrite IH, (ok_at_exists cfg cfg' n a H).
Qed.

Lemma outcome_exists (cfg cfg' : option text) (l : list action) :
  (cfg = None <-> cfg' = None) ->
  forall n, outcome succeeds cfg n l = outcome succeeds cfg' n l.
Proof.
  intros H. induction l as [|a l IH]; intros n; [reflexivity|].
  simpl. now rewrite IH, (ok_at_exists cfg cfg' n a H).
Qed.

Lemma effect_exists (st : state) (a : action) :
  effect st a = None <-> setup_cfg st = None.
Proof.
  destruct a; simpl; try tauto.
  destruct (setup_cfg st); simpl; split; congruence.
Qed.

Lemma run_unfold (a : action) (st : state) :
  run succeeds a st =
    (if status_ok succeeds st a then inl tt else inr (failed a),
     {| setup_cfg := effect st a; trace := trace st ++ [a] |}).
Proof.
  unfold run. now destruct (status_ok succeeds st a).
Qed.

Lemma for_each_run (l : list action) (st : state) :
  trace (snd (for_each l (run succeeds) st))
    = trace st ++ executed succeeds (setup_cfg st) (List.length (trace st)) l
  /\ fst (for_each l (run succeeds) st)
    = outcome succeeds (setup_cfg st) (List.length (trace st)) l.
Proof.
  revert st. induction l as [|a l IH]; intros st.
  - simpl. now rewrite app_nil_r.
  - cbn [for_each executed outcome]. unfold bind.
    rewrite (run_unfold a st), status_ok_at.
    destruct (ok_at succeeds (setup_cfg st) (List.length (trace st)) a).
    + match goal with
      | |- context [for_each l _ ?s] => destruct (IH s) as [Ht Hr]
      end.
      rewrite Ht, Hr. cbn [trace setup_cfg].
      rewrite length_app, Nat.add_1_r, <- app_assoc.
      rewrite (executed_exists _ _ l (effect_exists st a)).
      rewrite (outcome_exists _ _ l (effect_exists st a)).
      split; reflexivity.
    + split; reflexivity.
Qed.

(** Commands other than sed leave setup.cfg as it is. *)
Lemma for_each_run_cfg (l : list action) (st : state) :
  Forall (fun a => a <> sed_setup_cfg) l ->
  setup_cfg (snd (for_each l (run succeeds) st)) = setup_cfg st.
Proof.
  revert st. induction l as [|a l IH]; intros st Hl; [reflexivity|].
  apply Forall_cons_iff in Hl. destruct Hl as [Ha Hl].
  cbn [for_each]. unfold bind. rewrite (run_unfold a st).
  assert (He : effect st a = setup_cfg st) by (destruct a; tauto).
  destruct (status_ok succeeds st a).
  - rewrite IH by assumption. exact He.
  - exact He.
Qed.

(** *** What [executed] and [outcome] say *)

Lemma executed_prefix (cfg : option text) (l : list action) (n : nat) :
  exists rest, l = executed succeeds cfg n l ++ rest.
Proof.
  revert n. induction l as [|a l IH]; intros n; [now exists []|].
  simpl. destruct (ok_at succeeds cfg n a).
  - destruct (IH (S n)) as (rest & Hrest). exists rest. now rewrite <- Hrest.
  - now exists l.
Qed.

Lemma executed_stops (cfg : option text) (l : list action) (n i : nat)
    (a : action) :
  nth_error (executed succeeds cfg n l) i = Some a ->
  ok_at succeeds cfg (n + i) a = false ->
  S i = List.length (executed succeeds cfg n l)
  /\ outcome succeeds cfg n l = inr (failed a).
Proof.
  revert n i. induction l as [|b l IH]; intros n i Hnth Hok.
  - now destruct i.
  - simpl in *. destruct i as [|i]; simpl in Hnth.
    + injection Hnth as ->. rewrite Nat.add_0_r in Hok. now rewrite Hok.
    + destruct (ok_at succeeds cfg n b); [|now destruct i].
      rewrite <- Nat.add_succ_comm in Hok.
      destruct (IH (S n) i Hnth Hok) as [Hlen Hout]. now rewrite Hlen, Hout.
Qed.

Lemma executed_all (cfg : option text) (l : list action) (n : nat) :
  (forall i a, nth_error l i = Some a -> ok_at succeeds cfg (n + i) a = true) ->
  executed succeeds cfg n l = l /\ outcome succeeds cfg n l = inl tt.
Proof.
  revert n. induction l as [|b l IH]; intros n Hall; [now split|].
  simpl. pose proof (Hall 0 b eq_refl) as H0.
  rewrite Nat.add_0_r in H0. rewrite H0.
  destruct (IH (S n)) as [He Ho].
  - intros i a Hi. rewrite Nat.add_succ_comm. now apply Hall.
  - now rewrite He, Ho.
Qed.

(** *** The run of the script *)

Lemma run_script_trace (e : env) (cfg : option text) :
  trace (snd (run_script succeeds e cfg))
    = executed succeeds cfg 0 (commands e)
  /\ fst (run_script succeeds e cfg)
    = finish e (outcome succeeds cfg 0 (commands e)).
Proof.
  unfold run_script. rewrite script_as_commands. cbn [fst snd].
  destruct (for_each_run (commands e) {| setup_cfg := cfg; trace := [] |})
    as [Ht Hr].
  rewrite Ht, Hr. split; reflexivity.
Qed.

Lemma pipeline_no_sed (e : env) :
  Forall (fun a => a <> sed_setup_cfg) (pipeline e).
Proof.
  unfold pipeline.
  destruct (SHARED_PATH e); [|constructor].
  destruct (PYVER e); [|repeat constructor; discriminate].
  destruct (TEST_OS e); [|repeat constructor; discriminate].
  repeat (constructor; [discriminate|]).
  apply Forall_forall. intros a Ha. apply in_map_iff in Ha.
  destruct Ha as (os & <- & _). discriminate.
Qed.

Lemma tag_missing_iff (e : env) :
  tag_missing e = true
  <-> CI_COMMIT_TAG e = None \/ CI_COMMIT_TAG e = Some ""%string.
Proof.
  unfold tag_missing. destruct (CI_COMMIT_TAG e) as [tag|].
  - rewrite String.eqb_eq. split.
    + intros ->. now right.
    + intros [H|H]; [discriminate|now injection H].
  - split; [now left|reflexivity].
Qed.

Lemma executed_In (cfg : option text) (l : list action) (n : nat)
    (a : action) :
  In a (executed succeeds cfg n l) -> In a l.
Proof.
  destruct (executed_prefix cfg l n) as (rest & Hrest).
  intros H. rewrite Hrest. apply in_or_app. now left.
Qed.

Lemma run_script_cfg (e : env) (cfg : option text) :
  setup_cfg (snd (run_script succeeds e cfg))
  = if tag_missing e then option_map (sed_s_g pattern replacement) cfg
    else cfg.
Proof.
  unfold run_script. rewrite script_as_commands. cbn [snd].
  unfold commands. destruct (tag_missing e); cbn [app].
  - cbn [for_each]. unfold bind. rewrite run_unfold.
    destruct (status_ok succeeds _ sed_setup_cfg).
    + rewrite for_each_run_cfg by apply pipeline_no_sed. reflexivity.
    + reflexivity.
  - rewrite for_each_run_cfg by apply pipeline_no_sed. reflexivity.
Qed.

(** C9: the script runs sed on setup.cfg exactly when CI_COMMIT_TAG is
    unset or empty; then every occurrence of "style = pep440" is replaced
    by "style = ci_wheel_builder" and nothing else changes; with a
    non-empty CI_COMMIT_TAG setup.cfg stays as it is. *)
Theorem ci_rewrites_setup_cfg (e : env) (cfg : option text) :
  (In sed_setup_cfg (trace (snd (run_script succeeds e cfg)))
   <-> CI_COMMIT_TAG e = None \/ CI_COMMIT_TAG e = Some ""%string)
  /\ (CI_COMMIT_TAG e = None \/ CI_COMMIT_TAG e = Some ""%string ->
      setup_cfg (snd (run_script succeeds e cfg))
        = option_map (sed_s_g pattern replacement) cfg
      /\ forall before, cfg = Some before ->
           exists after,
             setup_cfg (snd (run_script succeeds e cfg)) = Some after
             /\ replaced_everywhere pattern replacement before after
             /\ forall after',
                  replaced_everywhere pattern replacement before after' ->
                  after' = after)
  /\ (forall tag, CI_COMMIT_TAG e = Some tag -> tag <> ""%string ->
      setup_cfg (snd (run_script succeeds e cfg)) = cfg).
Proof.
  pose proof (run_script_cfg e cfg) as Hcfg.
  destruct (run_script_trace e cfg) as [Htr _].
  rewrite <- tag_missing_iff. split; [|split].
  - rewrite Htr. unfold commands.
    destruct (tag_missing e); cbn [app executed].
    + split; [reflexivity|]. intros _. now left.
    + split; [|discriminate]. intros Hin. apply executed_In in Hin.
      pose proof (pipeline_no_sed e) as Hno.
      rewrite Forall_forall in Hno. now destruct (Hno _ Hin).
  - intros Hm. rewrite Hm in Hcfg. split; [exact Hcfg|].
    intros before ->. exists (sed_s_g pattern replacement before).
    split; [exact Hcfg|]. split; [apply sed_setup_cfg_parts|].
    intros after' H'. eapply setup_cfg_result_unique; [exact H'|].
    apply sed_setup_cfg_parts.
  - intros tag Htag Hne.
    assert (Hm : tag_missing e = false).
    { unfold tag_missing. rewrite Htag. now apply String.eqb_neq. }
    now rewrite Hm in Hcfg.
Qed.

Lemma run_script_prefix (e : env) (cfg : option text) :
  exists rest,
    commands e = trace (snd (run_script succeeds e cfg)) ++ rest.
Proof.
  destruct (run_script_trace e cfg) as [-> _]. apply executed_prefix.
Qed.

Lemma run_script_errexit (e : env) (cfg : option text) (i : nat)
    (a : action) :
  nth_error (trace (snd (run_script succeeds e cfg))) i = Some a ->
  ok_at succeeds cfg i a = false ->
  S i = List.length (trace (snd (run_script succeeds e cfg)))
  /\ fst (run_script succeeds e cfg) = inr (failed a).
Proof.
  destruct (run_script_trace e cfg) as [-> ->]. intros Hnth Hok.
  destruct (executed_stops cfg (commands e) 0 i a Hnth Hok) as [Hlen ->].
  split; [exact Hlen|reflexivity].
Qed.

(** A command that is followed by another one in the trace succeeded. *)
Lemma run_script_earlier_ok (e : env) (cfg : option text) (k i : nat)
    (a b : action) :
  nth_error (trace (snd (run_script succeeds e cfg))) k = Some a ->
  nth_error (trace (snd (run_script succeeds e cfg))) i = Some b ->
  k < i ->
  ok_at succeeds cfg k a = true.
Proof.
  intros Hk Hi Hlt.
  destruct (ok_at succeeds cfg k a) eqn:Hok; [reflexivity|].
  destruct (run_script_errexit e cfg k a Hk Hok) as [Hlen _].
  assert (i < List.length (trace (snd (run_script succeeds e cfg))))
    by (apply nth_error_Some; congruence).
  lia.
Qed.

Lemma run_script_nth (e : env) (cfg : option text) (k i : nat) (b : action) :
  nth_error (trace (snd (run_script succeeds e cfg))) i = Some b ->
  k <= i ->
  nth_error (trace (snd (run_script succeeds e cfg))) k
  = nth_error (commands e) k.
Proof.
  intros Hi Hle. destruct (run_script_prefix e cfg) as (rest & ->).
  rewrite nth_error_app1; [reflexivity|].
  assert (i < List.length (trace (snd (run_script succeeds e cfg))))
    by (apply nth_error_Some; congruence).
  lia.
Qed.

(** C4: the script runs its commands in the order of the text: after the
    guarded sed and the change to the repository root it pulls the image
    pymor/wheelbuilder:py${PYVER}, runs the builder container on the
    wheelhouse and the repository root, and only after that run has
    returned with status 0 builds an image with build-arg tag=os for each
    word os of the loop, one after the other; these words are the words of
    TEST_OS, a word with a file-name pattern being replaced by the names
    that match it, so that they are the systems named in TEST_OS when
    TEST_OS holds no pattern; no command runs after one that failed. *)
Theorem ci_pipeline_in_order (e : env) (cfg : option text) :
  (exists rest, commands e = trace (snd (run_script succeeds e cfg)) ++ rest)
  /\ (forall wheelhouse pyver test_os,
        SHARED_PATH e = Some wheelhouse -> PYVER e = Some pyver ->
        TEST_OS e = Some test_os ->
        commands e =
          (if tag_missing e then [sed_setup_cfg] else [])
          ++ [assign_pymor_root; cd (pymor_root e); mkdir_p wheelhouse;
              docker_pull ("pymor/wheelbuilder:py" ++ pyver)%string;
              docker_run (id_u e) wheelhouse (pymor_root e)
                         ("pymor/wheelbuilder:py" ++ pyver)%string
                         "/usr/local/bin/build-wheels.sh";
              cp (pymor_root e ++ "/.ci/docker/deploy_checks/Dockerfile")%string
                 wheelhouse]
          ++ map (fun os => docker_build os wheelhouse)
                 (loop_words e test_os)
        /\ (has_pattern_char test_os = false ->
            loop_words e test_os
            = fields test_os))
  /\ (forall i a,
        nth_error (trace (snd (run_script succeeds e cfg))) i = Some a ->
        ok_at succeeds cfg i a = false ->
        S i = List.length (trace (snd (run_script succeeds e cfg)))
        /\ fst (run_script succeeds e cfg) = inr (failed a))
  /\ ((forall i a, nth_error (commands e) i = Some a ->
                   ok_at succeeds cfg i a = true) ->
      trace (snd (run_script succeeds e cfg)) = commands e
      /\ (first_unset e = None -> fst (run_script succeeds e cfg) = inl tt))
  /\ (forall i tag context,
        nth_error (trace (snd (run_script succeeds e cfg))) i
          = Some (docker_build tag context) ->
        exists k j pyver,
          let image := ("pymor/wheelbuilder:py" ++ pyver)%string in
          let builder :=
            docker_run (id_u e) context (pymor_root e) image
                       "/usr/local/bin/build-wheels.sh" in
          PYVER e = Some pyver /\ SHARED_PATH e = Some context
          /\ k < j /\ j < i
          /\ nth_error (trace (snd (run_script succeeds e cfg))) k
               = Some (docker_pull image)
          /\ succeeds k (docker_pull image) = true
          /\ nth_error (trace (snd (run_script succeeds e cfg))) j
               = Some builder
          /\ succeeds j builder = true).
Proof.
  split; [apply run_script_prefix|]. split; [|split; [|split]].
  - intros wheelhouse pyver test_os Hs Hp Ht. split.
    + unfold commands, pipeline. now rewrite Hs, Hp, Ht.
    + exact (loop_words_plain e test_os).
  - apply run_script_errexit.
  - intros Hall. destruct (run_script_trace e cfg) as [-> ->].
    destruct (executed_all cfg (commands e) 0 Hall) as [-> ->].
    split; [reflexivity|]. intros Hu. unfold finish. now rewrite Hu.
  - intros i tag context Hi.
    assert (Hc : nth_error (commands e) i = Some (docker_build tag context))
      by (rewrite <- (run_script_nth e cfg i i _ Hi (le_n i)); exact Hi).
    assert (Hpos : exists g wheelhouse pyver,
               SHARED_PATH e = Some wheelhouse /\ PYVER e = Some pyver
               /\ context = wheelhouse /\ g + 5 < i
               /\ nth_error (commands e) (g + 3)
                    = Some (docker_pull (builder_image pyver))
               /\ nth_error (commands e) (g + 4)
                    = Some (docker_run (id_u e) wheelhouse (pymor_root e)
                                       (builder_image pyver)
                                       "/usr/local/bin/build-wheels.sh")).
    { unfold commands, pipeline in *.
      destruct (SHARED_PATH e) as [wheelhouse|];
        [|destruct (tag_missing e);
          repeat (destruct i as [|i]; try discriminate Hc)].
      destruct (PYVER e) as [pyver|];
        [|destruct (tag_missing e);
          repeat (destruct i as [|i]; try discriminate Hc)].
      assert (Hctx : forall l n,
                 nth_error (map (fun os => docker_build os wheelhouse) l) n
                 = Some (docker_build tag context) -> context = wheelhouse).
      { intros l n H. apply nth_error_In, in_map_iff in H.
        destruct H as (os & [= _ <-] & _). reflexivity. }
      destruct (tag_missing e); [exists 1|exists 0];
        exists wheelhouse, pyver;
        do 6 (destruct i as [|i]; [discriminate Hc|]); cbn in Hc.
      - destruct i as [|i]; [discriminate Hc|]. cbn in Hc.
        destruct (TEST_OS e); [|now destruct i].
        apply Hctx in Hc. repeat split; try reflexivity; try assumption; lia.
      - destruct (TEST_OS e); [|now destruct i].
        apply Hctx in Hc. repeat split; try reflexivity; try assumption; lia. }
    destruct Hpos as (g & wheelhouse & pyver & Hs & Hp & -> & Hlt & Hk & Hj).
    rewrite <- (run_script_nth e cfg (g + 3) i _ Hi) in Hk by lia.
    rewrite <- (run_script_nth e cfg (g + 4) i _ Hi) in Hj by lia.
    exists (g + 3), (g + 4), pyver. cbv zeta.
    split; [exact Hp|]. split; [exact Hs|].
    split; [lia|]. split; [lia|]. split; [exact Hk|].
    split; [exact (run_script_earlier_ok e cfg _ i _ _ Hk Hi ltac:(lia))|].
    split; [exact Hj|].
    exact (run_script_earlier_ok e cfg _ i _ _ Hj Hi ltac:(lia)).
Qed.

End WithCommands.

(** A run for Python 3.7 on two test systems. *)

Lemma ci_pipeline_in_order_witness :
  (forall i a, nth_error (commands ci_env) i = Some a ->
               ok_at all_succeed pep440_cfg i a = true)
  /\ trace (snd (run_script all_succeed ci_env pep440_cfg))
     = [sed_setup_cfg; assign_pymor_root; cd "/src"; mkdir_p "/shared";
        docker_pull "pymor/wheelbuilder:py3.7";
        docker_run "1000" "/shared" "/src" "pymor/wheelbuilder:py3.7"
                   "/usr/local/bin/build-wheels.sh";
        cp "/src/.ci/docker/deploy_checks/Dockerfile" "/shared";
        docker_build "debian" "/shared"; docker_build "centos" "/shared"]
  /\ fst (run_script all_succeed ci_env pep440_cfg) = inl tt.
Proof.
  assert (Hok : forall i a,
             nth_error (commands ci_env) i = Some a ->
             ok_at all_succeed pep440_cfg i a = true)
    by (intros i a _; now destruct a).
  split; [exact Hok|].
  destruct (ci_pipeline_in_order all_succeed ci_env pep440_cfg)
    as (_ & _ & _ & Hall & _).
  destruct (Hall Hok) as [Htrace Hend].
  split; [exact Htrace|exact (Hend eq_refl)].
Defined.

Lemma ci_rewrites_setup_cfg_witness :
  (CI_COMMIT_TAG ci_env = None \/ CI_COMMIT_TAG ci_env = Some ""%string)
  /\ setup_cfg (snd (run_script all_succeed ci_env pep440_cfg))
     = Some (list_ascii_of_string "style = ci_wheel_builder").
Proof.
  split; [left; reflexivity|].
  destruct (ci_rewrites_setup_cfg all_succeed ci_env pep440_cfg)
    as (_ & Hsed & _).
  destruct (Hsed (or_introl eq_refl)) as [Hcfg _]. exact Hcfg.
Defined.

End CISpec.

(** ** Properties of the notebook *)

Module HeatSpec.

Import Heat.

Local Open Scope list_scope.

(** *** The reduce calls *)





(** *** Error norms and Bode plots *)

(** C2, as stated, fails: for the reduced model of TSIA the notebook prints
    no error norm and draws no Bode plot, with or without slycot. *)
Lemma tsia_error_not_assessed :
  existsb (fun ev => reports H2 TSIAReductor ev
                     || reports Hinf TSIAReductor ev
                     || reports Hankel TSIAReductor ev
                     || bode_plot TSIAReductor ev) (notebook true) = false
  /\ In (Make (rom_of TSIAReductor)) (notebook true)
  /\ ~ fully_assessed true TSIAReductor
  /\ ~ (forall have_slycot R,
          In R all_reductors -> fully_assessed have_slycot R).
Proof.
  assert (Hno : ~ fully_assessed true TSIAReductor).
  { intros [Hk _]. specialize (Hk H2). discriminate Hk. }
  split; [reflexivity|]. split; [|split; [exact Hno|]].
  - unfold notebook. do 8 (apply in_or_app; right). apply in_or_app; left.
    simpl. tauto.
  - intros H. apply Hno, H. simpl. tauto.
Qed.

Lemma prints_of_reductor (have_slycot : bool) (R : reductor)
    (label : string) (v : value) :
  In R with_error_block ->
  In (Print label v) (notebook have_slycot) ->
  value_involves R v = true ->
  (exists k, v = relative_error k (rom_of R))
  \/ (R = IRKAReductor /\ v = relative_h2_error_to_tf rom_irka).
Proof.
  intros HR Hin Hv.
  assert (H : In (Print label v)
                 (filter (fun ev => match ev with
                                    | Print _ v => value_involves R v
                                    | _ => false
                                    end) (notebook have_slycot)))
    by (apply filter_In; split; [exact Hin|exact Hv]).
  clear Hin Hv. simpl in HR.
  destruct HR as [<-|[<-|[<-|[<-|[<-|[]]]]]]; destruct have_slycot;
    simpl in H;
    repeat (destruct H as [[= <- <-]|H];
            [first [left; eexists; reflexivity | right; split; reflexivity]|]);
    destruct H.
Qed.

(** C2, amended: for the reduced models of BT, LQGBT, BRBT, IRKA and
    one-sided IRKA the notebook forms the error system [lti - rom], prints
    its H2 and its Hankel norm, each over the same norm of [lti], and its
    H-infinity norm over that of [lti] exactly when slycot is available,
    and draws the Bode plot of [lti] with the reduced model and that of the
    error system; nothing else is printed about these reduced models but
    the H2 error of the IRKA model against [tf]; for TSIA the reduced model
    is made and nothing more; for TF-IRKA the notebook forms [tf - rom] and
    prints its H2 norm by quadrature over that of [tf], and nothing more. *)
Theorem notebook_error_assessment (have_slycot : bool) :
  (forall R, In R with_error_block ->
     In (Make (rom_of R)) (notebook have_slycot)
     /\ In (Make (minus lti (rom_of R))) (notebook have_slycot)
     /\ (forall k, (k = Hinf -> have_slycot = true) ->
           exists label,
             In (Print label (relative_error k (rom_of R)))
                (notebook have_slycot))
     /\ (exists title,
           In (Figure title [mag_plot lti None;
                             mag_plot (rom_of R) (Some "dashed"%string)])
              (notebook have_slycot))
     /\ (exists title,
           In (Figure title [mag_plot (minus lti (rom_of R)) None])
              (notebook have_slycot))
     /\ (forall label v,
           In (Print label v) (notebook have_slycot) ->
           value_involves R v = true ->
           (exists k, v = relative_error k (rom_of R))
           \/ (R = IRKAReductor /\ v = relative_h2_error_to_tf rom_irka)))
  /\ (have_slycot = false ->
      forall label v, In (Print label v) (notebook have_slycot) ->
                      mentions_norm Hinf v = false)
  /\ filter (event_involves TSIAReductor) (notebook have_slycot)
     = [Make rom_tsia]
  /\ filter (event_involves TF_IRKAReductor) (notebook have_slycot)
     = [Make rom_tf_irka;
        Make (minus tf rom_tf_irka);
        Print "TF-IRKA relative H_2-error = "
              (relative_h2_error_to_tf rom_tf_irka)].
Proof.
  split; [|split; [|split]].
  - intros R HR.
    split; [|split; [|split; [|split; [|split]]]].
    + simpl in HR.
      destruct HR as [<-|[<-|[<-|[<-|[<-|[]]]]]];
        unfold notebook;
        repeat (apply in_or_app; first [left; simpl; tauto | right]).
    + simpl in HR.
      destruct HR as [<-|[<-|[<-|[<-|[<-|[]]]]]];
        unfold notebook;
        repeat (apply in_or_app; first [left; simpl; tauto | right]).
    + intros k Hk. simpl in HR.
      destruct HR as [<-|[<-|[<-|[<-|[<-|[]]]]]];
        destruct k, have_slycot;
        try (specialize (Hk eq_refl); discriminate Hk);
        eexists; unfold notebook;
        repeat (apply in_or_app; first [left; simpl; tauto | right]).
      all: simpl; tauto.
    + simpl in HR.
      destruct HR as [<-|[<-|[<-|[<-|[<-|[]]]]]];
        destruct have_slycot; eexists; unfold notebook;
        repeat (apply in_or_app; first [left; simpl; tauto | right]).
      all: simpl; tauto.
    + simpl in HR.
      destruct HR as [<-|[<-|[<-|[<-|[<-|[]]]]]];
        destruct have_slycot; eexists; unfold notebook;
        repeat (apply in_or_app; first [left; simpl; tauto | right]).
      all: simpl; tauto.
    + intros label v. now apply prints_of_reductor.
  - intros -> label v Hin.
    assert (Hall : forallb (fun ev => negb (calls_hinf_norm ev))
                           (notebook false) = true) by reflexivity.
    rewrite forallb_forall in Hall. specialize (Hall _ Hin).
    cbn [calls_hinf_norm] in Hall. now destruct (mentions_norm Hinf v).
  - destruct have_slycot; reflexivity.
  - destruct have_slycot; reflexivity.
Qed.

(** *** Relative errors *)

(** C5, as stated, fails: the figure printed for TF-IRKA is the H2 norm of
    [tf - rom_tf_irka] over the H2 norm of [tf], both by quadrature, not
    [norm(lti - rom) / norm(lti)]. *)
Lemma tf_irka_error_not_relative_to_lti :
  In (Print "TF-IRKA relative H_2-error = " tf_irka_figure) (notebook true)
  /\ is_error_figure tf_irka_figure = true
  /\ relative_to_lti tf_irka_figure = false
  /\ ~ (forall have_slycot ev,
          In ev (notebook have_slycot) -> scored_against_lti ev = true).
Proof.
  split; [|split; [reflexivity|split; [reflexivity|]]].
  - unfold notebook. do 10 (apply in_or_app; right).
    unfold tf_irka. simpl. tauto.
  - intros H.
    assert (Hall : forallb scored_against_lti (notebook true) = true)
      by (apply forallb_forall; intros ev Hev; now apply (H true)).
    discriminate Hall.
Qed.

Lemma all_scored_relatively (have_slycot : bool) :
  forallb scored_relatively (notebook have_slycot) = true.
Proof.
  destruct have_slycot; reflexivity.
Qed.

(** C5, amended: every printed figure of merit is a ratio of the norm of
    an error system to the same norm of the full model; the figures taken
    with h2_norm, hinf_norm and hankel_norm are
    [norm(lti - rom) / norm(lti)], and each of them is printed for the
    reduced models of BT, LQGBT, BRBT, IRKA and one-sided IRKA (the
    H-infinity one when slycot is available); the H2 figures taken by
    quadrature are the norm of [tf - rom] over that of [tf]. *)
Theorem error_figures_are_relative (have_slycot : bool) :
  (forall label v,
      In (Print label v) (notebook have_slycot) ->
      is_error_figure v = true ->
      (uses_norm_method v = true -> relative_to_lti v = true)
      /\ (uses_norm_method v = false -> relative_to_tf v = true))
  /\ (forall R k,
        In R with_error_block ->
        (k = Hinf -> have_slycot = true) ->
        exists label,
          In (Print label (ratio (norm k (minus lti (rom_of R)))
                                 (norm k lti)))
             (notebook have_slycot)).
Proof.
  split.
  - intros label v Hin Hfig.
    pose proof (all_scored_relatively have_slycot) as Hall.
    rewrite forallb_forall in Hall. specialize (Hall _ Hin).
    cbn [scored_relatively] in Hall. rewrite Hfig in Hall.
    destruct (uses_norm_method v); split; congruence.
  - intros R k HR Hk. simpl in HR.
    destruct HR as [<-|[<-|[<-|[<-|[<-|[]]]]]];
      destruct k, have_slycot;
      try (specialize (Hk eq_refl); discriminate Hk);
      eexists; unfold notebook;
      repeat (apply in_or_app; first [left; simpl; tauto | right]).
    all: simpl; tauto.
Qed.

(** *** The initial model of TSIA *)

Lemma shape_is_of_shape (M : matrix) (rows cols : nat) :
  shape M = Some (rows, cols) -> shape_is M rows cols = true.
Proof.
  unfold shape_is. intros ->. now rewrite !Nat.eqb_refl.
Qed.

Lemma shape_no_rows (M : matrix) (cols : nat) :
  shape M = Some (0, cols) -> cols = 0.
Proof.
  destruct M as [|row M]; simpl.
  - now intros [= <-].
  - destruct (forallb _ M); discriminate.
Qed.

Lemma shape_zeros (rows cols : nat) :
  rows <> 0 -> shape (zeros rows cols) = Some (rows, cols).
Proof.
  destruct rows as [|rows]; [contradiction|]. intros _.
  unfold zeros. cbn [repeat shape].
  replace (forallb _ _) with true.
  - cbn [List.length]. now rewrite !repeat_length.
  - symmetry. apply forallb_forall. intros row Hrow.
    apply repeat_spec in Hrow. subst row. apply Nat.eqb_refl.
Qed.

(** Without D, and with E given, [from_matrices] returns a valid model
    whose D is the zero matrix, whenever A, B, C and E fit together. *)
Lemma from_matrices_without_D (A0 B0 C0 E0 : matrix) (n m p : nat) :
  shape A0 = Some (n, n) -> shape B0 = Some (n, m) ->
  shape C0 = Some (p, n) -> shape E0 = Some (n, n) ->
  exists s,
    from_matrices A0 B0 C0 None (Some E0) = Some s
    /\ valid s = true
    /\ A s = A0 /\ B s = B0 /\ C s = C0 /\ E s = E0
    /\ D s = zeros p m.
Proof.
  intros HA HB HC HE.
  assert (HD : shape_is (zeros p m) p m = true).
  { destruct p as [|p].
    - apply shape_no_rows in HC. subst n.
      apply shape_no_rows in HB. now subst m.
    - apply shape_is_of_shape, shape_zeros. discriminate. }
  assert (Hv : valid {| A := A0; B := B0; C := C0;
                        D := zeros p m; E := E0 |} = true).
  { unfold valid. cbn [A B C D E]. rewrite HA, HB, HC, HD.
    now rewrite !shape_is_of_shape. }
  exists {| A := A0; B := B0; C := C0; D := zeros p m; E := E0 |}.
  unfold from_matrices. rewrite HA, HB, HC, Hv. repeat split.
Qed.

(** C6: an LTI model has the matrices A, B, C, D and E; [from_matrices]
    called with A, B, C and E and without D returns a valid model, with
    the zero matrix for D; this is how the notebook makes the initial
    reduced model of TSIA, from Ar, Br, Cr and E = Er alone. *)
Theorem tsia_initial_model_valid (have_slycot : bool) :
  (forall A0 B0 C0 E0 n m p,
      shape A0 = Some (n, n) -> shape B0 = Some (n, m) ->
      shape C0 = Some (p, n) -> shape E0 = Some (n, n) ->
      exists s,
        from_matrices A0 B0 C0 None (Some E0) = Some s
        /\ valid s = true
        /\ A s = A0 /\ B s = B0 /\ C s = C0 /\ E s = E0
        /\ D s = zeros p m)
  /\ (forall A0 B0 C0 D0 E0,
        In (Make (LTIModel_from_matrices A0 B0 C0 D0 E0))
           (notebook have_slycot) ->
        A0 = Ar /\ B0 = Br /\ C0 = Cr /\ D0 = None /\ E0 = Some Er)
  /\ In (Make (LTIModel_from_matrices Ar Br Cr None (Some Er)))
        (notebook have_slycot)
  /\ In (Make (reduced TSIAReductor lti []
                       [initial (LTIModel_from_matrices Ar Br Cr None (Some Er));
                        keyword "compute_errors" "True"]))
        (notebook have_slycot)
  /\ exists s,
       matrices_of rom0 = Some s
       /\ valid s = true
       /\ A s = Ar /\ B s = Br /\ C s = Cr /\ E s = Er
       /\ D s = zeros 1 1
       /\ shape (A s) = Some (5, 5) /\ shape (B s) = Some (5, 1)
       /\ shape (C s) = Some (1, 5) /\ shape (D s) = Some (1, 1)
       /\ shape (E s) = Some (5, 5).
Proof.
  split; [exact from_matrices_without_D|]. split; [|split; [|split]].
  - intros A0 B0 C0 D0 E0 Hin.
    assert (H : In (Make (LTIModel_from_matrices A0 B0 C0 D0 E0))
                   (filter (fun ev => match ev with
                                      | Make (LTIModel_from_matrices _ _ _ _ _) => true
                                      | _ => false
                                      end) (notebook have_slycot)))
      by (apply filter_In; split; [exact Hin|reflexivity]).
    replace (filter _ (notebook have_slycot)) with [Make rom0] in H
      by (destruct have_slycot; reflexivity).
    destruct H as [[= <- <- <- <- <-]|[]]. repeat split.
  - unfold notebook. do 8 (apply in_or_app; right). apply in_or_app; left.
    simpl. tauto.
  - unfold notebook. do 8 (apply in_or_app; right). apply in_or_app; left.
    simpl. tauto.
  - destruct (from_matrices_without_D Ar Br Cr Er 5 1 1)
      as (s & Hs & Hv & HA & HB & HC & HE & HD); try reflexivity.
    exists s. unfold matrices_of, rom0. rewrite Hs, HA, HB, HC, HE, HD.
    repeat split; try assumption; reflexivity.
Qed.

(** *** The blocks of balanced truncation *)


Lemma notebook_error_assessment_witness :
  In BTReductor with_error_block
  /\ In (Make (minus lti rom_bt)) (notebook false)
  /\ exists label,
       In (Print label (ratio (norm Hankel (minus lti rom_bt))
                              (norm Hankel lti)))
          (notebook false).
Proof.
  assert (Hin : In BTReductor with_error_block) by (simpl; tauto).
  split; [exact Hin|].
  destruct (notebook_error_assessment false) as [Hblock _].
  destruct (Hblock BTReductor Hin) as (_ & Herr & Hnorms & _).
  split; [exact Herr|]. apply (Hnorms Hankel). discriminate.
Defined.

Lemma error_figures_are_relative_witness :
  In (Print "BT relative H_2-error:    " bt_h2_figure) (notebook true)
  /\ is_error_figure bt_h2_figure = true
  /\ uses_norm_method bt_h2_figure = true
  /\ relative_to_lti bt_h2_figure = true.
Proof.
  assert (Hin : In (Print "BT relative H_2-error:    " bt_h2_figure)
                   (notebook true)).
  { unfold notebook. do 4 (apply in_or_app; right). apply in_or_app; left.
    simpl. tauto. }
  split; [exact Hin|]. split; [reflexivity|]. split; [reflexivity|].
  destruct (error_figures_are_relative true) as [Hrel _].
  destruct (Hrel _ _ Hin eq_refl) as [Hlti _]. exact (Hlti eq_refl).
Defined.

Lemma tsia_initial_model_valid_witness :
  shape Ar = Some (5, 5) /\ shape Br = Some (5, 1)
  /\ shape Cr = Some (1, 5) /\ shape Er = Some (5, 5)
  /\ exists s,
       from_matrices Ar Br Cr None (Some Er) = Some s
       /\ valid s = true /\ D s = zeros 1 1.
Proof.
  repeat (split; [reflexivity|]).
  destruct (tsia_initial_model_valid true) as [Hgeneral _].
  destruct (Hgeneral Ar Br Cr Er 5 1 1 eq_refl eq_refl eq_refl eq_refl)
    as (s & Hs & Hv & _ & _ & _ & _ & HD).
  exists s. split; [exact Hs|]. split; [exact Hv|exact HD].
Defined.

End HeatSpec.

(** ** More about the launcher *)

Module LauncherMore.

Import Str StrFacts Launcher LauncherSpec.

Section WithEnvironment.

Variable found : list string.
Variable demo : string -> list string -> option termination.

Lemma selected_module (name : string) :
  contains name (shorts found) = true ->
  exists j, index name (shorts found) = Some j
            /\ nth_error (modules found) j = Some ("pymordemos." ++ name).
Proof.
  intros Hc. apply contains_In in Hc.
  destruct (index_of_member _ _ Hc) as (j & Hj & Hnth & _).
  exists j. split; [exact Hj|].
  rewrite modules_eq, nth_error_map.
  rewrite shorts_eq in Hnth. now rewrite Hnth.
Qed.

(** The discovery loop keeps [modules] and [shorts] aligned: both have one
    entry per name that was yielded, in that order; the short name at an
    index is the module name at that index without "pymordemos."; and two
    modules with the same short name are the same module. *)
Theorem discovery_aligned :
  List.length (modules found) = List.length found
  /\ List.length (shorts found) = List.length found
  /\ (forall i n, nth_error found i = Some n ->
        nth_error (modules found) i = Some ("pymordemos." ++ n)
        /\ nth_error (shorts found) i = Some n)
  /\ (forall i module_name,
        nth_error (modules found) i = Some module_name ->
        nth_error (shorts found) i
        = Some (slice_from (String.length "pymordemos.") module_name)
        /\ module_name
           = "pymordemos."
             ++ slice_from (String.length "pymordemos.") module_name)
  /\ (forall i j s, nth_error (shorts found) i = Some s ->
        nth_error (shorts found) j = Some s ->
        nth_error (modules found) i = nth_error (modules found) j).
Proof.
  split; [now rewrite modules_eq, length_map|].
  split; [now rewrite shorts_eq|]. split; [|split].
  - intros i n Hn. rewrite modules_eq, shorts_eq, nth_error_map, Hn.
    split; reflexivity.
  - intros i module_name Hm.
    destruct (module_at found i module_name Hm) as (n & Hn & Hname & Hshort).
    rewrite Hshort, shorts_eq. split; [exact Hn|exact Hname].
  - intros i j s Hi Hj. rewrite shorts_eq in Hi, Hj.
    now rewrite modules_eq, !nth_error_map, Hi, Hj.
Qed.

(** Whatever the arguments, the launcher does one of three things: without
    any argument vector it fails with IndexError before it prints or runs
    anything; with no first argument, or one that is no short name, it
    prints the usage message once, runs nothing and exits with status 0;
    with a short name it prints nothing and runs one module, the
    discovered module of that name, and ends as that run ends. *)
Theorem launcher_cases (args : list string) :
  (args = []
   /\ launcher found demo args
      = (inr (Raised "IndexError"),
         {| argv := []; stdout := []; runs := [] |}))
  \/ (exists prog rest,
        args = prog :: rest
        /\ (rest = [] \/ exists a1 more, rest = a1 :: more
                                         /\ ~ In a1 (shorts found))
        /\ launcher found demo args
           = (inr (Exited 0),
              {| argv := args; stdout := [usage_msg found prog ++ nl];
                 runs := [] |}))
  \/ (exists prog name options,
        args = prog :: name :: options
        /\ In name (shorts found)
        /\ In ("pymordemos." ++ name) (modules found)
        /\ launcher found demo args
           = (inr (after_demo (demo ("pymordemos." ++ name) (prog :: options))),
              {| argv := prog :: options; stdout := [];
                 runs := [{| mod_name := "pymordemos." ++ name;
                             run_name := "__main__"; alter_sys := true;
                             argv_at_call := prog :: options |}] |})).
Proof.
  destruct args as [|prog rest]; [left; split; reflexivity|]. right.
  destruct rest as [|a1 more].
  - left. exists prog, []. split; [reflexivity|]. split; [now left|].
    apply launcher_usage. exact I.
  - destruct (contains a1 (shorts found)) eqn:Hc.
    + right. exists prog, a1, more.
      destruct (selected_module a1 Hc) as (j & Hj & Hm).
      split; [reflexivity|]. split; [now apply contains_In|].
      split; [eapply nth_error_In; exact Hm|].
      exact (launcher_dispatch found demo prog a1 more j _ Hc Hj Hm).
    + left. exists prog, (a1 :: more). split; [reflexivity|]. split.
      * right. exists a1, more. split; [reflexivity|].
        intros Hin. apply contains_In in Hin. congruence.
      * apply launcher_usage. exact Hc.
Qed.

End WithEnvironment.

End LauncherMore.

(** ** More about the CI script *)

Module CIMore.

Import CI CISpec.

Local Open Scope list_scope.

(** *** What sed leaves behind *)

(** An occurrence of the pattern in [x ++ rep ++ z] lies in [x], lies in
    [z], or starts where [rep] starts, when pattern and replacement begin
    with a character that neither holds again. *)
Lemma occurs_around (c0 : ascii) (prest rrest x z : text) :
  ~ In c0 prest -> ~ In c0 rrest ->
  occurs (c0 :: prest) (x ++ (c0 :: rrest) ++ z) ->
  occurs (c0 :: prest) x \/ occurs (c0 :: prest) z
  \/ exists b, (c0 :: rrest) ++ z = (c0 :: prest) ++ b.
Proof.
  intros Hp Hr (a & b & H). symmetry in H. apply app_eq_app in H.
  destruct H as (l & [[-> H]|[-> H]]).
  - destruct l as [|l0 l].
    + right; right. now exists b.
    + simpl in H. injection H as <- H.
      destruct (prefix_before c0 rrest z l (prest ++ b) Hr H) as (a' & ->).
      rewrite <- app_assoc in H. apply app_inv_head in H.
      right; left. now exists a', b.
  - destruct l as [|l0 l].
    + right; right. exists b. now rewrite H.
    + simpl in H. injection H as <- H.
      destruct (prefix_before c0 prest b l (rrest ++ z) Hp H) as (a' & ->).
      left. now exists a, a'.
Qed.

Lemma join_without_occurrence (c0 : ascii) (prest rrest : text)
    (parts : list text) :
  ~ In c0 prest -> ~ In c0 rrest ->
  (forall z b, (c0 :: rrest) ++ z <> (c0 :: prest) ++ b) ->
  Forall (fun part => ~ occurs (c0 :: prest) part) parts ->
  ~ occurs (c0 :: prest) (join (c0 :: rrest) parts).
Proof.
  intros Hp Hr Hstart. induction parts as [|x ps IH]; intros Hall.
  - apply occurs_nil. discriminate.
  - apply Forall_cons_iff in Hall. destruct Hall as [Hx Hps].
    destruct ps as [|y ps]; [exact Hx|].
    rewrite join_cons by discriminate. intros Hocc.
    apply occurs_around in Hocc; [|assumption|assumption].
    destruct Hocc as [H|[H|(b & H)]].
    + now apply Hx.
    + now apply IH.
    + exact (Hstart _ b H).
Qed.

Lemma replacement_starts_no_match (z b : text) :
  replacement ++ z <> pattern ++ b.
Proof.
  intros H. symmetry in H. apply strip_prefix_app in H. discriminate H.
Qed.

Lemma pattern_head_fresh : ~ In "s"%char (tl pattern).
Proof.
  simpl. intros H. repeat (destruct H as [H|H]; [discriminate|]). exact H.
Qed.

Lemma replacement_head_fresh : ~ In "s"%char (tl replacement).
Proof.
  simpl. intros H. repeat (destruct H as [H|H]; [discriminate|]). exact H.
Qed.

Lemma sed_leaves_no_pattern (file : text) :
  ~ occurs pattern (sed_s_g pattern replacement file).
Proof.
  destruct (sed_setup_cfg_parts file) as (parts & _ & _ & -> & Hall).
  apply (join_without_occurrence "s"%char (tl pattern) (tl replacement));
    [exact pattern_head_fresh|exact replacement_head_fresh| |exact Hall].
  exact replacement_starts_no_match.
Qed.

Lemma replaced_nowhere (pat rep file : text) :
  ~ occurs pat file -> replaced_everywhere pat rep file file.
Proof.
  intros H. exists [file]. split; [discriminate|].
  split; [reflexivity|]. split; [reflexivity|]. now constructor.
Qed.

Lemma sed_keeps_text_without_pattern (file : text) :
  ~ occurs pattern file -> sed_s_g pattern replacement file = file.
Proof.
  intros H. apply (setup_cfg_result_unique file).
  - apply sed_setup_cfg_parts.
  - now apply replaced_nowhere.
Qed.

Lemma s_g_keeps_line_without_pattern (line : text) :
  ~ occurs pattern line -> s_g pattern replacement line = line.
Proof.
  intros H. apply (setup_cfg_result_unique line).
  - apply s_g_parts. discriminate.
  - now apply replaced_nowhere.
Qed.

(** *** Lines *)

Lemma lines_without_newline (s : text) :
  Forall (fun l => ~ In newline l) (lines s).
Proof.
  induction s as [|c s IH]; [now repeat constructor|].
  cbn [lines]. destruct (Ascii.eqb_spec c newline) as [->|Hne].
  - constructor; [intros []|exact IH].
  - pose proof (lines_not_nil s) as Hnn.
    destruct (lines s) as [|l ls]; [contradiction|].
    apply Forall_cons_iff in IH. destruct IH as [Hl Hls].
    constructor; [|exact Hls].
    intros [Hc|Hin]; [now apply Hne|now apply Hl].
Qed.

Lemma lines_app_line (l rest : text) :
  ~ In newline l ->
  lines (l ++ newline :: rest) = l :: lines rest.
Proof.
  induction l as [|c l IH]; intros Hl.
  - reflexivity.
  - cbn [app lines].
    destruct (Ascii.eqb_spec c newline) as [->|Hne];
      [exfalso; apply Hl; now left|].
    rewrite IH; [reflexivity|]. intros Hin. apply Hl. now right.
Qed.

Lemma lines_single (l : text) : ~ In newline l -> lines l = [l].
Proof.
  induction l as [|c l IH]; intros Hl; [reflexivity|].
  cbn [lines].
  destruct (Ascii.eqb_spec c newline) as [->|Hne];
    [exfalso; apply Hl; now left|].
  rewrite IH; [reflexivity|]. intros Hin. apply Hl. now right.
Qed.

Lemma lines_join (ls : list text) :
  ls <> [] -> Forall (fun l => ~ In newline l) ls ->
  lines (join [newline] ls) = ls.
Proof.
  induction ls as [|l ls IH]; [contradiction|]. intros _ Hall.
  apply Forall_cons_iff in Hall. destruct Hall as [Hl Hls].
  destruct ls as [|l2 ls].
  - simpl. now apply lines_single.
  - rewrite join_cons by discriminate. cbn [app].
    rewrite lines_app_line by assumption.
    now rewrite IH by (discriminate || assumption).
Qed.

Lemma substitute_without_newline (pat rep : text) (fuel : nat) :
  ~ In newline rep ->
  forall line, ~ In newline line ->
    ~ In newline (substitute fuel pat rep line).
Proof.
  intros Hrep. induction fuel as [|fuel IH]; intros line Hline;
    [exact Hline|].
  destruct line as [|c line']; [intros []|]. cbn [substitute].
  destruct (strip_prefix pat (c :: line')) as [rest|] eqn:Hp.
  - apply strip_prefix_app in Hp. intros Hin. apply in_app_or in Hin.
    destruct Hin as [Hin|Hin]; [now apply Hrep|].
    revert Hin. apply IH. intros Hin. apply Hline. rewrite Hp.
    apply in_or_app. now right.
  - intros [Hc|Hin].
    + apply Hline. now left.
    + revert Hin. apply IH. intros Hin. apply Hline. now right.
Qed.

Lemma replacement_without_newline : ~ In newline replacement.
Proof.
  unfold newline. simpl. intros H.
  repeat (destruct H as [H|H]; [discriminate|]). exact H.
Qed.

Lemma lines_of_sed (file : text) :
  lines (sed_s_g pattern replacement file)
  = map (s_g pattern replacement) (lines file).
Proof.
  unfold sed_s_g. apply lines_join.
  - pose proof (lines_not_nil file). now destruct (lines file).
  - apply Forall_forall. intros l Hl. apply in_map_iff in Hl.
    destruct Hl as (l0 & <- & Hl0).
    apply substitute_without_newline; [exact replacement_without_newline|].
    pose proof (lines_without_newline file) as Hall.
    rewrite Forall_forall in Hall. now apply Hall.
Qed.

(** The script changes setup.cfg only through sed, and sed only where the
    pattern stands: setup.cfg is the same after the run exactly when
    CI_COMMIT_TAG is set and not empty, or setup.cfg does not exist, or it
    does not hold "style = pep440". *)
Theorem setup_cfg_unchanged_iff (succeeds : nat -> action -> bool)
    (e : env) (cfg : option text) :
  setup_cfg (snd (run_script succeeds e cfg)) = cfg
  <-> tag_missing e = false
      \/ cfg = None
      \/ exists content, cfg = Some content /\ ~ occurs pattern content.
Proof.
  rewrite run_script_cfg. destruct (tag_missing e).
  - destruct cfg as [content|]; cbn [option_map].
    + split.
      * intros [= H]. right; right. exists content. split; [reflexivity|].
        rewrite <- H. apply sed_leaves_no_pattern.
      * intros [H|[H|(c & [= <-] & Hc)]]; try discriminate.
        now rewrite sed_keeps_text_without_pattern.
    + split; [intros _; right; now left|reflexivity].
  - split; [intros _; now left|reflexivity].
Qed.

(** After a run without tag no "style = pep440" is left in setup.cfg, so a
    second run of the script, whatever its environment and whatever its
    commands do, leaves setup.cfg of the first run as it is. *)
Theorem second_run_keeps_setup_cfg (succeeds succeeds' : nat -> action -> bool)
    (e e' : env) (cfg : option text) :
  (tag_missing e = true ->
   forall content,
     setup_cfg (snd (run_script succeeds e cfg)) = Some content ->
     ~ occurs pattern content)
  /\ (tag_missing e = true \/ tag_missing e' = false ->
      setup_cfg (snd (run_script succeeds' e'
                        (setup_cfg (snd (run_script succeeds e cfg)))))
      = setup_cfg (snd (run_script succeeds e cfg))).
Proof.
  rewrite !run_script_cfg. split.
  - intros -> content H. destruct cfg as [c|]; [|discriminate H].
    injection H as <-. apply sed_leaves_no_pattern.
  - intros [->| ->]; [|reflexivity].
    destruct (tag_missing e'); [|reflexivity].
    destruct cfg as [c|]; [|reflexivity]. cbn [option_map].
    now rewrite (sed_keeps_text_without_pattern _ (sed_leaves_no_pattern c)).
Qed.

(** sed works on the lines where they are: the file has as many lines
    after as before, each line is the image of the line at its place, and
    a line without "style = pep440" is the same after as before. *)
Theorem sed_changes_lines_in_place (file : text) :
  List.length (lines (sed_s_g pattern replacement file))
  = List.length (lines file)
  /\ (forall i line,
        nth_error (lines file) i = Some line ->
        nth_error (lines (sed_s_g pattern replacement file)) i
        = Some (s_g pattern replacement line)
        /\ (~ occurs pattern line ->
            nth_error (lines (sed_s_g pattern replacement file)) i
            = Some line)).
Proof.
  rewrite lines_of_sed. split; [apply length_map|].
  intros i line Hi. rewrite nth_error_map, Hi. cbn [option_map].
  split; [reflexivity|]. intros Hno.
  now rewrite s_g_keeps_line_without_pattern.
Qed.

(** *** Word splitting *)

Lemma no_ifs_append (a : string) (c : ascii) :
  no_ifs a = true -> is_ifs c = false ->
  no_ifs (a ++ String c "")%string = true.
Proof.
  intros Ha Hc. induction a as [|x a IH]; simpl in *.
  - now rewrite Hc.
  - apply andb_true_iff in Ha. destruct Ha as [Hx Ha].
    now rewrite Hx, IH.
Qed.

Lemma split_words_only_words (s : string) :
  forall word, no_ifs word = true ->
    Forall (fun w => is_word w = true) (split_words word s).
Proof.
  induction s as [|c s IH]; intros word Hw; cbn [split_words].
  - destruct (String.eqb word "") eqn:He; [constructor|].
    constructor; [|constructor]. unfold is_word. now rewrite He, Hw.
  - destruct (is_ifs c) eqn:Hc.
    + destruct (String.eqb word "") eqn:He; [now apply IH|].
      constructor; [|now apply IH]. unfold is_word. now rewrite He, Hw.
    + apply IH. now apply no_ifs_append.
Qed.

Lemma split_words_through (w rest : string) :
  no_ifs w = true ->
  forall word,
    split_words word (w ++ rest)%string = split_words (word ++ w)%string rest.
Proof.
  induction w as [|c w IH]; intros Hw word.
  - now rewrite StrFacts.append_empty_r.
  - simpl in Hw. apply andb_true_iff in Hw. destruct Hw as [Hc Hw].
    apply negb_true_iff in Hc. cbn [String.append split_words].
    rewrite Hc, IH by assumption.
    now rewrite StrFacts.append_assoc.
Qed.

Lemma fields_of_joined (ws : list string) :
  Forall (fun w => is_word w = true) ws ->
  fields (String.concat " " ws) = ws.
Proof.
  induction ws as [|w ws IH]; intros Hall; [reflexivity|].
  apply Forall_cons_iff in Hall. destruct Hall as [Hw Hws].
  unfold is_word in Hw. apply andb_true_iff in Hw. destruct Hw as [Hne Hw].
  apply negb_true_iff in Hne. unfold fields in *.
  destruct ws as [|w2 ws]; cbn [String.concat].
  - rewrite <- (StrFacts.append_empty_r w) at 1.
    rewrite split_words_through by assumption.
    cbn [String.append split_words]. now rewrite Hne.
  - rewrite split_words_through by assumption.
    cbn [String.append split_words is_ifs Ascii.eqb orb].
    cbn. rewrite Hne. f_equal. now apply IH.
Qed.

(** Word splitting gives words only: none of them is empty or holds a
    blank, a tab or a newline, so blanks around or between the names add
    no word; and names that are such words, joined by single blanks, are
    split into the same names again. *)
Theorem fields_are_the_words :
  (forall s, Forall (fun w => is_word w = true) (fields s))
  /\ (forall ws, Forall (fun w => is_word w = true) ws ->
                 fields (String.concat " " ws) = ws).
Proof.
  split; [|exact fields_of_joined].
  intros s. now apply split_words_only_words.
Qed.

(** *** The run as a whole *)

Section WithCommands.

Variable succeeds : nat -> action -> bool.

Lemma outcome_ok_iff (cfg : option text) (l : list action) (n : nat) :
  outcome succeeds cfg n l = inl tt
  <-> forall i a, nth_error l i = Some a ->
                  ok_at succeeds cfg (n + i) a = true.
Proof.
  split; [|apply executed_all].
  revert n. induction l as [|b l IH]; intros n H i a Hi.
  - now destruct i.
  - cbn [outcome] in H.
    destruct (ok_at succeeds cfg n b) eqn:Hb; [|discriminate H].
    destruct i as [|i]; cbn in Hi.
    + injection Hi as <-. now rewrite Nat.add_0_r.
    + rewrite <- Nat.add_succ_comm. now apply (IH (S n)).
Qed.

Lemma outcome_not_unbound (cfg : option text) (l : list action) (n : nat)
    (name : string) :
  outcome succeeds cfg n l <> inr (unbound_variable name).
Proof.
  revert n. induction l as [|b l IH]; intros n; cbn [outcome];
    [discriminate|].
  destruct (ok_at succeeds cfg n b); [apply IH|discriminate].
Qed.

Lemma in_trace (e : env) (cfg : option text) (a : action) :
  In a (trace (snd (run_script succeeds e cfg))) -> In a (commands e).
Proof.
  destruct (run_script_trace succeeds e cfg) as [-> _]. apply executed_In.
Qed.


Lemma builds_of_commands (e : env) :
  filter is_build (commands e)
  = match SHARED_PATH e, PYVER e, TEST_OS e with
    | Some wheelhouse, Some _, Some test_os =>
        map (fun os => docker_build os wheelhouse) (loop_words e test_os)
    | _, _, _ => []
    end.
Proof.
  unfold commands, pipeline. rewrite filter_app.
  replace (filter is_build (if tag_missing e then [sed_setup_cfg] else []))
    with (@nil action) by (now destruct (tag_missing e)).
  destruct (SHARED_PATH e) as [wheelhouse|]; [|reflexivity].
  destruct (PYVER e) as [pyver|]; [|reflexivity].
  destruct (TEST_OS e) as [test_os|]; [|reflexivity].
  cbn [app filter is_build].
  induction (loop_words e test_os) as [|os l IH]; [reflexivity|].
  cbn [map filter is_build]. now rewrite IH.
Qed.

(** The script ends well exactly when SHARED_PATH, PYVER and TEST_OS are
    all set and every command of the list returns status 0; then the whole
    list was run, in order. *)
Theorem script_succeeds_iff (e : env) (cfg : option text) :
  (fst (run_script succeeds e cfg) = inl tt
   <-> first_unset e = None
       /\ forall i a, nth_error (commands e) i = Some a ->
                      ok_at succeeds cfg i a = true)
  /\ (fst (run_script succeeds e cfg) = inl tt ->
      trace (snd (run_script succeeds e cfg)) = commands e).
Proof.
  destruct (run_script_trace succeeds e cfg) as [Ht Hr].
  rewrite Ht, Hr. split.
  - rewrite <- (outcome_ok_iff cfg (commands e) 0). unfold finish.
    destruct (outcome succeeds cfg 0 (commands e)) as [[]|f];
      destruct (first_unset e); split;
      first [intros [? ?]; congruence | intros ?; try split; congruence].
  - unfold finish. intros H.
    destruct (outcome succeeds cfg 0 (commands e)) as [[]|f] eqn:Ho;
      [|discriminate H].
    pose proof (proj1 (outcome_ok_iff cfg (commands e) 0) Ho) as Hall.
    now destruct (executed_all succeeds cfg (commands e) 0 Hall).
Qed.

(** A variable that is not set stops the script where it is first used:
    without SHARED_PATH nothing but sed is run, without SHARED_PATH or
    PYVER no docker command is run, without TEST_OS no image is built; and
    the script does not end well: when all commands before that point
    return status 0 it ends on the unset variable. *)
Theorem unset_variable_stops (e : env) (cfg : option text) :
  (SHARED_PATH e = None ->
   forall a, In a (trace (snd (run_script succeeds e cfg))) ->
             a = sed_setup_cfg)
  /\ (SHARED_PATH e = None \/ PYVER e = None ->
      forall a, In a (trace (snd (run_script succeeds e cfg))) ->
                is_docker a = false)
  /\ (TEST_OS e = None ->
      forall a, In a (trace (snd (run_script succeeds e cfg))) ->
                is_build a = false)
  /\ (forall name, first_unset e = Some name ->
        fst (run_script succeeds e cfg) <> inl tt
        /\ ((forall i a, nth_error (commands e) i = Some a ->
                         ok_at succeeds cfg i a = true) ->
            fst (run_script succeeds e cfg) = inr (unbound_variable name))).
Proof.
  split; [|split; [|split]].
  - intros Hs a Ha. apply in_trace in Ha.
    unfold commands, pipeline in Ha. rewrite Hs, app_nil_r in Ha.
    destruct (tag_missing e); simpl in Ha; [|destruct Ha].
    now destruct Ha as [<-|[]].
  - intros Hu a Ha. apply in_trace in Ha.
    unfold commands, pipeline in Ha. apply in_app_or in Ha.
    destruct Ha as [Ha|Ha].
    + destruct (tag_missing e); simpl in Ha; [|tauto].
      destruct Ha as [<-|[]]. reflexivity.
    + destruct (SHARED_PATH e) as [wheelhouse|]; [|destruct Ha].
      destruct Hu as [Hu|Hu]; [discriminate Hu|]. rewrite Hu in Ha.
      simpl in Ha. destruct Ha as [<-|[<-|[<-|[]]]]; reflexivity.
  - intros Hu a Ha. apply in_trace in Ha.
    destruct (is_build a) eqn:Hb; [|reflexivity].
    assert (Hin : In a (filter is_build (commands e)))
      by (apply filter_In; now split).
    rewrite builds_of_commands, Hu in Hin.
    now destruct (SHARED_PATH e), (PYVER e).
  - intros name Hname.
    destruct (run_script_trace succeeds e cfg) as [_ ->].
    unfold finish. rewrite Hname. split.
    + now destruct (outcome succeeds cfg 0 (commands e)).
    + intros Hall.
      now rewrite (proj2 (outcome_ok_iff cfg (commands e) 0) Hall).
Qed.



End WithCommands.


(** A [*] in TEST_OS is a file-name pattern: with [TEST_OS='debian *'] in
    a directory that holds setup.cfg and src, the script builds an image
    with tag debian, one with tag setup.cfg and one with tag src, and none
    with tag [*]. *)
Theorem pattern_in_test_os_is_expanded :
  filter is_build (trace (snd (run_script all_succeed star_env pep440_cfg)))
  = [docker_build "debian" "/shared"; docker_build "setup.cfg" "/shared";
     docker_build "src" "/shared"]
  /\ fields "debian *" = ["debian"%string; "*"%string]
  /\ fst (run_script all_succeed star_env pep440_cfg) = inl tt.
Proof. repeat split. Qed.

End CIMore.

(** ** More about the notebook *)

Module HeatMore.

Import Heat HeatSpec.

Local Open Scope list_scope.

(** slycot decides about the H-infinity norms and about nothing else: the
    run without slycot is the run with slycot without the events that call
    hinf_norm, of which there are six, and it never calls hinf_norm; the
    models made and the figures drawn are the same in both runs. *)
Theorem slycot_only_adds_hinf_norms (have_slycot : bool) :
  filter (fun ev => negb (calls_hinf_norm ev)) (notebook have_slycot)
  = notebook false
  /\ existsb calls_hinf_norm (notebook false) = false
  /\ List.length (filter calls_hinf_norm (notebook true)) = 6
  /\ filter (fun ev => match ev with Print _ _ => false | _ => true end)
            (notebook have_slycot)
     = filter (fun ev => match ev with Print _ _ => false | _ => true end)
              (notebook true).
Proof.
  destruct have_slycot; repeat split; reflexivity.
Qed.

(** *** Shapes *)








End HeatMore.

